(** * LovPdf: the page-range parser, the image page-fit layout and the
    page-number text, embedded from the TypeScript sources.

    - [parsePageRanges] (pdf service, lines 27-55) turns an expression such as
      "1-3, 5, 7-9" into the sorted zero-based page indices.
    - The layout arithmetic of [convertImagesToPdf] (image service, lines
      156-176) places an image on a page, keeping its aspect ratio.
    - [addPageNumbersToPdf] (pdf service, lines 198-203) builds the text drawn
      on each page from a format with the place holders %p and %t.
    - Around them: [mergePdfs], [extractPagesFromPdf], [splitPdf],
      [rotatePdfPages], [hexToRgb] and the position of the page numbers (pdf
      service), the pages of [convertImagesToPdf], [processFiles] of the
      multi-file upload and the routes of the application.

    Modelling choices.
    - A JS string is a list of one-byte code units ([list ascii]); the white
      space of [trim] and [parseInt] in that range is TAB, LF, VT, FF, CR,
      SPACE and NBSP.
    - The JS numbers of the parser are integers or NaN; they are modelled by
      [Z] plus [NaN], which is exact below 2^53, far above any page count.
    - The JS numbers of the layout are IEEE doubles.  [PageFitDouble] embeds
      the layout over the binary64 floats of the kernel, with the rounding,
      the infinities and NaN of the source.  [PageFit] is the same arithmetic
      over exact rationals [Q], without rounding; a zero divisor (Infinity or
      NaN in JS) is outside it, and what is stated about the values of its
      rectangles is stated for exact arithmetic and non-zero divisors.
    - A thrown [Error] is an [Err] result carrying the kind of the message. *)

From Stdlib Require Import List Ascii String ZArith QArith Qfield Lia Lqa Bool.
From Stdlib Require Import Sorted Permutation ListSet.
From Stdlib Require PrimFloat.
Import ListNotations.

(* ================================================================== *)
(** ** JS string and number primitives used by the sources *)

Module Js.

Local Open Scope char_scope.
Local Open Scope Z_scope.

Definition jsstring := list ascii.

(** A string literal of the source. *)
Definition str (s : string) : jsstring := list_ascii_of_string s.

(** WhiteSpace and LineTerminator code units below 256. *)
Definition isWhiteSpace (c : ascii) : bool :=
  let n := nat_of_ascii c in
  existsb (Nat.eqb n) [9; 10; 11; 12; 13; 32; 160]%nat.

Fixpoint trimStart (s : jsstring) : jsstring :=
  match s with
  | [] => []
  | c :: s' => if isWhiteSpace c then trimStart s' else s
  end.

Definition trimEnd (s : jsstring) : jsstring := rev (trimStart (rev s)).

(** [String.prototype.trim]. *)
Definition trim (s : jsstring) : jsstring := trimEnd (trimStart s).

(** [String.prototype.split] with a one-character separator: the pieces
    between the separators, empty pieces included; never the empty array. *)
Fixpoint split (sep : ascii) (s : jsstring) : list jsstring :=
  match s with
  | [] => [[]]
  | c :: s' =>
      if Ascii.eqb c sep then [] :: split sep s'
      else match split sep s' with
           | p :: ps => (c :: p) :: ps
           | [] => [[c]]
           end
  end.

(** [String.prototype.includes] with a one-character needle. *)
Definition includes (c : ascii) (s : jsstring) : bool :=
  existsb (Ascii.eqb c) s.

Definition isDigit (c : ascii) : bool :=
  let n := nat_of_ascii c in (48 <=? n)%nat && (n <=? 57)%nat.

Definition digitValue (c : ascii) : Z := Z.of_nat (nat_of_ascii c - 48).

(** The longest prefix of decimal digits. *)
Fixpoint takeDigits (s : jsstring) : jsstring :=
  match s with
  | [] => []
  | c :: s' => if isDigit c then c :: takeDigits s' else []
  end.

Definition digitsValue (ds : jsstring) : Z :=
  fold_left (fun acc c => 10 * acc + digitValue c) ds 0.

(** The numbers the parser handles: an integer or NaN. *)
Inductive number : Type :=
| NaN
| Int (z : Z).

(** [parseInt(s, 10)]: skip leading white space, read an optional sign, then
    the longest run of digits; NaN when that run is empty.  Whatever follows
    the digits is ignored. *)
Definition readSign (s : jsstring) : Z * jsstring :=
  match s with
  | "-" :: r => (-1, r)
  | "+" :: r => (1, r)
  | _ => (1, s)
  end.

Definition parseInt (inputString : jsstring) : number :=
  let '(sign, s) := readSign (trimStart inputString) in
  match takeDigits s with
  | [] => NaN
  | z => Int (sign * digitsValue z)
  end.

Definition digitChar (d : Z) : ascii := ascii_of_nat (48 + Z.to_nat d).

Fixpoint digitsOf (fuel : nat) (n : Z) : jsstring :=
  match fuel with
  | O => []
  | S f =>
      if n <? 10 then [digitChar n]
      else digitsOf f (n / 10) ++ [digitChar (n mod 10)]
  end.

(** [Number.prototype.toString] on an integer (below 10^21, where JS still
    prints plain decimal digits). *)
Definition toString (n : Z) : jsstring :=
  if n <? 0 then "-" :: digitsOf (S (Z.to_nat (- n))) (- n)
  else digitsOf (S (Z.to_nat n)) n.

Fixpoint startsWith (pat s : jsstring) : bool :=
  match pat, s with
  | [], _ => true
  | _ :: _, [] => false
  | p :: pat', c :: s' => Ascii.eqb p c && startsWith pat' s'
  end.

(** [String.prototype.replace] with a string pattern: the first occurrence
    only.  The replacement is taken literally, as JS does for a replacement
    without a dollar sign (here always the digits of a number). *)
Fixpoint replace (pat rep s : jsstring) : jsstring :=
  if startsWith pat s then rep ++ skipn (List.length pat) s
  else match s with
       | [] => []
       | c :: s' => c :: replace pat rep s'
       end.

(** [Array.prototype.sort((a, b) => a - b)]: the engine's algorithm is not
    fixed, its result on numbers is the ascending arrangement; modelled by a
    stable insertion sort. *)
Fixpoint insertSorted (a : Z) (l : list Z) : list Z :=
  match l with
  | [] => [a]
  | b :: l' => if a <=? b then a :: l else b :: insertSorted a l'
  end.

Fixpoint sortNumeric (l : list Z) : list Z :=
  match l with
  | [] => []
  | a :: l' => insertSorted a (sortNumeric l')
  end.

(** A [Set<number>]: distinct values in insertion order. *)
Definition NumberSet := set Z.

Definition setAdd (v : Z) (s : NumberSet) : NumberSet := set_add Z.eq_dec v s.

End Js.

(* ================================================================== *)
(** ** The range parser *)

Module RangeParser.
Import Js.

Local Open Scope char_scope.
Local Open Scope Z_scope.

(** The two messages [parsePageRanges] throws: "Invalid page range: ..."
    and "Invalid page number: ...". *)
Inductive ParseError : Type :=
| InvalidRange
| InvalidPageNumber.

Inductive result (A : Type) : Type :=
| Ok (a : A)
| Err (e : ParseError).

Arguments Ok {A} a.
Arguments Err {A} e.

Definition bind {A B} (r : result A) (k : A -> result B) : result B :=
  match r with
  | Ok a => k a
  | Err e => Err e
  end.

(** [for (let i = start; i <= end; i++) resultPages.add(i - 1)], the number
    of rounds given as [count]. *)
Fixpoint addRange (i : Z) (count : nat) (resultPages : NumberSet) : NumberSet :=
  match count with
  | O => resultPages
  | S n => addRange (i + 1) n (setAdd (i - 1) resultPages)
  end.

(** One round of the loop over the comma-separated parts (lines 33-52). *)
Definition processPart (maxPage : Z) (resultPages : NumberSet)
    (part : jsstring) : result NumberSet :=
  let trimmedPart := trim part in
  if includes "-" trimmedPart then
    match split "-" trimmedPart with
    | startStr :: endStr :: _ =>
        match parseInt startStr, parseInt endStr with
        | Int start, Int end_ =>
            if (start <? 1) || (end_ <? start) || (start >? maxPage)
            then Err InvalidRange
            else
              let end' := Z.min end_ maxPage in
              Ok (addRange start (Z.to_nat (end' - start + 1)) resultPages)
        | _, _ => Err InvalidRange
        end
    | _ => Err InvalidRange
    end
  else
    match parseInt trimmedPart with
    | Int pageNum =>
        if (pageNum <? 1) || (pageNum >? maxPage)
        then Err InvalidPageNumber
        else Ok (setAdd (pageNum - 1) resultPages)
    | NaN => Err InvalidPageNumber
    end.

Fixpoint processParts (maxPage : Z) (resultPages : NumberSet)
    (parts : list jsstring) : result NumberSet :=
  match parts with
  | [] => Ok resultPages
  | part :: rest =>
      bind (processPart maxPage resultPages part)
           (fun resultPages' => processParts maxPage resultPages' rest)
  end.

Definition parsePageRanges (rangeStr : jsstring) (maxPage : Z)
    : result (list Z) :=
  match trim rangeStr with
  | [] => Ok []
  | _ =>
      bind (processParts maxPage [] (split "," rangeStr))
           (fun resultPages => Ok (sortNumeric resultPages))
  end.

End RangeParser.

(* ================================================================== *)
(** ** The image page-fit layout *)

Module PageFit.

Local Open Scope Q_scope.

Definition Qgtb (a b : Q) : bool :=
  match a ?= b with Gt => true | _ => false end.

Definition Qltb (a b : Q) : bool :=
  match a ?= b with Lt => true | _ => false end.

(** The options of [page.drawImage]: where the image goes. *)
Record PageFitRectangle : Type := mkRect {
  x : Q;
  y : Q;
  width : Q;
  height : Q
}.

(** Lines 159-176 of the image service over exact rationals, the margin
    taken as an argument (the source fixes it, see [margin]).  The source
    computes in doubles: this is its arithmetic without rounding, and a zero
    divisor is outside it; [PageFitDouble.computeFit] is the same code over
    doubles. *)
Definition computeFit (margin imageWidth imageHeight pageWidth pageHeight : Q)
    : PageFitRectangle :=
  let availableWidth := pageWidth - 2 * margin in
  let availableHeight := pageHeight - 2 * margin in
  let pageAspectRatio := availableWidth / availableHeight in
  let imageAspectRatio := imageWidth / imageHeight in
  let '(drawWidth, drawHeight) :=
    if Qgtb imageAspectRatio pageAspectRatio
    then (availableWidth, availableWidth / imageAspectRatio)
    else (availableHeight * imageAspectRatio, availableHeight) in
  {| x := margin + (availableWidth - drawWidth) / 2;
     y := margin + (availableHeight - drawHeight) / 2;
     width := drawWidth;
     height := drawHeight |}.

(** [const margin = 20]. *)
Definition margin : Q := 20.

Inductive PageSize : Type :=
| A4
| Letter
| Custom (w h : Q).

Inductive Orientation : Type :=
| portrait
| landscape.

Record ImageToPdfOptions : Type := mkOptions {
  pageSize : option PageSize;
  orientation : option Orientation
}.

(** [PageSizes.A4] and [PageSizes.Letter] of the PDF library, in points. *)
Definition PageSizes_A4 : Q * Q := (59528 # 100, 84189 # 100).
Definition PageSizes_Letter : Q * Q := (612, 792).

(** Lines 134-151: the page size asked for, turned to the orientation. *)
Definition pageDimensions (options : option ImageToPdfOptions) : Q * Q :=
  let '(pageWidth, pageHeight) :=
    match options with
    | Some {| pageSize := Some A4 |} => PageSizes_A4
    | Some {| pageSize := Some Letter |} => PageSizes_Letter
    | Some {| pageSize := Some (Custom w h) |} => (w, h)
    | _ => PageSizes_A4
    end in
  match options with
  | Some {| orientation := Some landscape |} =>
      if Qltb pageWidth pageHeight then (pageHeight, pageWidth)
      else (pageWidth, pageHeight)
  | Some {| orientation := Some portrait |} =>
      if Qgtb pageWidth pageHeight then (pageHeight, pageWidth)
      else (pageWidth, pageHeight)
  | _ => (pageWidth, pageHeight)
  end.

(** A page of the produced document: its size and where its image is drawn. *)
Record Page : Type := mkPage {
  pageWidthOf : Q;
  pageHeightOf : Q;
  drawn : PageFitRectangle
}.

(** What [convertImagesToPdf] can throw.  The source has the first two
    ("No image files provided." and "No images could be converted...");
    [MarginTooLarge] is the kind the specification names for the layout. *)
Inductive ImageError : Type :=
| NoImageFiles
| NoImagesConverted
| MarginTooLarge.

Inductive outcome : Type :=
| Saved (pages : list Page)
| Thrown (e : ImageError).

(** One round of the loop, for a file that was embedded with natural size
    [imageWidth] x [imageHeight]. *)
Definition addImagePage (options : option ImageToPdfOptions)
    (imageWidth imageHeight : Q) : Page :=
  let '(pageWidth, pageHeight) := pageDimensions options in
  {| pageWidthOf := pageWidth;
     pageHeightOf := pageHeight;
     drawn := computeFit margin imageWidth imageHeight pageWidth pageHeight |}.

(** [convertImagesToPdf]: a file is [Some (w, h)] when it embeds as an image
    of that natural size and [None] when it is skipped (unsupported type or
    failed conversion). *)
Definition convertImagesToPdf (imageFiles : list (option (Q * Q)))
    (options : option ImageToPdfOptions) : outcome :=
  match imageFiles with
  | [] => Thrown NoImageFiles
  | _ =>
      let pages :=
        flat_map (fun f => match f with
                           | Some (w, h) => [addImagePage options w h]
                           | None => []
                           end) imageFiles in
      match pages with
      | [] => Thrown NoImagesConverted
      | _ => Saved pages
      end
  end.

End PageFit.

(* ================================================================== *)
(** ** The image page-fit layout over doubles *)

Module PageFitDouble.
Import PrimFloat.

Local Open Scope float_scope.

(** The options of [page.drawImage], as the doubles the source computes. *)
Record PageFitRectangle : Type := mkRect {
  x : float;
  y : float;
  width : float;
  height : float
}.

(** Lines 159-176 of the image service, operation by operation, over
    binary64 floats: [/] by zero is an infinity or NaN, and [>] is false on
    NaN, as in the source. *)
Definition computeFit
    (margin imageWidth imageHeight pageWidth pageHeight : float)
    : PageFitRectangle :=
  let availableWidth := pageWidth - 2 * margin in
  let availableHeight := pageHeight - 2 * margin in
  let pageAspectRatio := availableWidth / availableHeight in
  let imageAspectRatio := imageWidth / imageHeight in
  let '(drawWidth, drawHeight) :=
    if ltb pageAspectRatio imageAspectRatio
    then (availableWidth, availableWidth / imageAspectRatio)
    else (availableHeight * imageAspectRatio, availableHeight) in
  {| x := margin + (availableWidth - drawWidth) / 2;
     y := margin + (availableHeight - drawHeight) / 2;
     width := drawWidth;
     height := drawHeight |}.

(** [const margin = 20]. *)
Definition margin : float := 20.

(** The rule of the specification for an image shaped as the available
    area, read on the doubles of the source: the rectangle is the available
    area, at (margin, margin). *)
Definition fillsAvailableArea
    (margin0 imageWidth imageHeight pageWidth pageHeight : float) : Prop :=
  imageWidth / imageHeight
  = (pageWidth - 2 * margin0) / (pageHeight - 2 * margin0) ->
  let r := computeFit margin0 imageWidth imageHeight pageWidth pageHeight in
  width r = pageWidth - 2 * margin0 /\
  height r = pageHeight - 2 * margin0 /\
  x r = margin0 /\
  y r = margin0.

End PageFitDouble.

(* ================================================================== *)
(** ** The page-number text *)

Module PageNumbers.
Import Js.

Local Open Scope Z_scope.

(** Lines 201-203: the text drawn on page [i] (zero-based) of [totalPages]. *)
Definition pageNumStr (format : jsstring) (i totalPages : Z) : jsstring :=
  replace (str "%t") (toString totalPages)
    (replace (str "%p") (toString (i + 1)) format).

(** The texts of all pages, in the order of the loop of line 198. *)
Definition pageTexts (format : jsstring) (totalPages : Z) : list jsstring :=
  map (fun i => pageNumStr format (Z.of_nat i) totalPages)
      (seq 0 (Z.to_nat totalPages)).

End PageNumbers.

(* ================================================================== *)
(** ** Reference definitions that follow the words of the specification *)

Module Reference.
Import Js.

Local Open Scope char_scope.
Local Open Scope Z_scope.

(** A base-10 integer in the strict sense: an optional sign and then digits
    only, at least one. *)
Definition isDecimalInteger (s : jsstring) : bool :=
  let digits :=
    match s with
    | "-" :: r => r
    | "+" :: r => r
    | _ => s
    end in
  match digits with
  | [] => false
  | _ => forallb isDigit digits
  end.

(** The value such an integer denotes. *)
Definition decimalValue (s : jsstring) : Z :=
  match s with
  | "-" :: r => - digitsValue r
  | "+" :: r => digitsValue r
  | _ => digitsValue s
  end.

(** The text before the first dash of a segment, and the text after it. *)
Fixpoint beforeDash (s : jsstring) : jsstring :=
  match s with
  | [] => []
  | c :: r => if Ascii.eqb c "-" then [] else c :: beforeDash r
  end.

Fixpoint afterDash (s : jsstring) : jsstring :=
  match s with
  | [] => []
  | c :: r => if Ascii.eqb c "-" then r else afterDash r
  end.

(** Step 3 of the specified algorithm, read strictly: a segment without a
    dash fails with InvalidPageNumber exactly when it is not a base-10
    integer or its value is outside [1, totalPages]. *)
Definition strictPageRule (totalPages : Z) (segment : jsstring) : Prop :=
  RangeParser.parsePageRanges segment totalPages
    = RangeParser.Err RangeParser.InvalidPageNumber
  <-> (isDecimalInteger segment = false
       \/ decimalValue segment < 1
       \/ totalPages < decimalValue segment).

(** Step 2 of the specified algorithm, read strictly: a segment with a dash
    fails with InvalidRange exactly when a token is not a base-10 integer, or
    start < 1, or end < start, or start > totalPages. *)
Definition strictRangeRule (totalPages : Z) (segment : jsstring) : Prop :=
  let start := beforeDash segment in
  let end_ := afterDash segment in
  RangeParser.parsePageRanges segment totalPages
    = RangeParser.Err RangeParser.InvalidRange
  <-> (isDecimalInteger start = false
       \/ isDecimalInteger end_ = false
       \/ decimalValue start < 1
       \/ decimalValue end_ < decimalValue start
       \/ totalPages < decimalValue start).

(** The layout rule of the specification for a page of the given size with
    one image on it: no available area, so MarginTooLarge. *)
Definition marginTooLargeRule (pageWidth pageHeight imageWidth imageHeight : Q)
    : Prop :=
  (pageWidth - 2 * PageFit.margin <= 0
   \/ pageHeight - 2 * PageFit.margin <= 0)%Q ->
  PageFit.convertImagesToPdf
    [Some (imageWidth, imageHeight)]
    (Some (PageFit.mkOptions (Some (PageFit.Custom pageWidth pageHeight)) None))
  = PageFit.Thrown PageFit.MarginTooLarge.

(** The format with its first %p and its first %t substituted, both located
    in the format itself; every later occurrence is copied. [pDone] and
    [tDone] tell whether the first %p, the first %t, is already behind. *)
Fixpoint substituteFirsts (p t : jsstring) (pDone tDone : bool)
    (format : jsstring) : jsstring :=
  match format with
  | [] => []
  | c :: rest =>
      match rest with
      | d :: rest' =>
          if Ascii.eqb "%" c && Ascii.eqb "p" d && negb pDone
          then p ++ substituteFirsts p t true tDone rest'
          else if Ascii.eqb "%" c && Ascii.eqb "t" d && negb tDone
          then t ++ substituteFirsts p t pDone true rest'
          else c :: substituteFirsts p t pDone tDone rest
      | [] => [c]
      end
  end.

(** The [n] consecutive integers from [lo] on. *)
Fixpoint consecutive (lo : Z) (n : nat) : list Z :=
  match n with
  | O => []
  | S n' => lo :: consecutive (lo + 1) n'
  end.

(** The pages collected so far are distinct and inside the document. *)
Definition collected (maxPage : Z) (acc : NumberSet) : Prop :=
  NoDup acc /\ forall i, In i acc -> 0 <= i < maxPage.

(** The text does not go on with a digit. *)
Definition noLeadingDigit (s : jsstring) : bool :=
  match s with
  | [] => true
  | c :: _ => negb (isDigit c)
  end.

End Reference.

(* ================================================================== *)
(** ** The PDF service around the parser: merge, extract, split, rotate *)

Module PdfService.
Import Js RangeParser.

Local Open Scope char_scope.
Local Open Scope Z_scope.

(** A page of a loaded document: [pageId] stands for all of the page but its
    rotation, [rotation] is the angle of its Rotate entry. *)
Record PdfPage : Type := mkPdfPage {
  pageId : nat;
  rotation : Z
}.

Definition PdfDocument := list PdfPage.

(** A [File] once loaded: its name and the pages of its document. *)
Record PdfFile : Type := mkPdfFile {
  fileName : jsstring;
  filePages : PdfDocument
}.

(** The errors of the service, by their message, and the failure of the PDF
    library on a page index outside the document. *)
Inductive ServiceError : Type :=
| ParseFailure (e : ParseError)
| NoPagesForExtraction
| NoRangesProvided
| InvalidSplitMode
| NoPdfsGenerated
| NoPagesForRotation
| PageIndexOutOfRange.

Inductive outcome (A : Type) : Type :=
| Done (a : A)
| Failed (e : ServiceError).

Arguments Done {A} a.
Arguments Failed {A} e.

Definition getPageCount (doc : PdfDocument) : Z := Z.of_nat (List.length doc).

(** [doc.getPageIndices()]: 0, 1, ..., count - 1. *)
Definition getPageIndices (doc : PdfDocument) : list Z :=
  map Z.of_nat (seq 0 (List.length doc)).

Definition pageAt (doc : PdfDocument) (index : Z) : option PdfPage :=
  if index <? 0 then None else nth_error doc (Z.to_nat index).

(** [target.copyPages(src, indices)] of the library: the pages at the
    indices, in the order of the indices; it fails on an index outside the
    source. *)
Fixpoint copyPages (src : PdfDocument) (indices : list Z)
    : option (list PdfPage) :=
  match indices with
  | [] => Some []
  | i :: rest =>
      match pageAt src i, copyPages src rest with
      | Some page, Some pages => Some (page :: pages)
      | _, _ => None
      end
  end.

(** [mergePdfs] (lines 7-17): every page of every file, file after file. *)
Fixpoint mergeInto (mergedPdf : PdfDocument) (files : list PdfDocument)
    : outcome PdfDocument :=
  match files with
  | [] => Done mergedPdf
  | pdfDoc :: rest =>
      match copyPages pdfDoc (getPageIndices pdfDoc) with
      | Some copiedPages => mergeInto (mergedPdf ++ copiedPages) rest
      | None => Failed PageIndexOutOfRange
      end
  end.

Definition mergePdfs (files : list PdfDocument) : outcome PdfDocument :=
  mergeInto [] files.

(** [extractPagesFromPdf] (lines 58-74). *)
Definition extractPagesFromPdf (pdfDoc : PdfDocument) (pageRangesStr : jsstring)
    : outcome PdfDocument :=
  let totalPages := getPageCount pdfDoc in
  match parsePageRanges pageRangesStr totalPages with
  | Err e => Failed (ParseFailure e)
  | Ok pagesToExtractIndices =>
      match pagesToExtractIndices with
      | [] => Failed NoPagesForExtraction
      | _ =>
          match copyPages pdfDoc pagesToExtractIndices with
          | Some copiedPages => Done copiedPages
          | None => Failed PageIndexOutOfRange
          end
      end
  end.

(** [s.lastIndexOf(c)] for a one-character needle: -1 when absent. *)
Fixpoint lastIndexOfFrom (c : ascii) (s : jsstring) (i : Z) (found : Z) : Z :=
  match s with
  | [] => found
  | d :: r => lastIndexOfFrom c r (i + 1) (if Ascii.eqb d c then i else found)
  end.

Definition lastIndexOf (c : ascii) (s : jsstring) : Z :=
  lastIndexOfFrom c s 0 (-1).

(** [s.substring(0, n)]: a negative end counts as 0. *)
Definition substring0 (s : jsstring) (n : Z) : jsstring :=
  firstn (Z.to_nat n) s.

(** [name.substring(0, name.lastIndexOf('.')) || name]: the empty string is
    falsy. *)
Definition fileNameBase (name : jsstring) : jsstring :=
  match substring0 name (lastIndexOf "." name) with
  | [] => name
  | base => base
  end.

Definition isAlnum (c : ascii) : bool :=
  let n := nat_of_ascii c in
  ((48 <=? n) && (n <=? 57) || (65 <=? n) && (n <=? 90)
   || (97 <=? n) && (n <=? 122))%nat.

(** [segment.replace(/[^0-9a-zA-Z-]/g, '_')]. *)
Definition sanitizeSegment (segment : jsstring) : jsstring :=
  map (fun c => if isAlnum c || Ascii.eqb c "-" then c else "_") segment.

Inductive SplitMode : Type :=
| all
| ranges.

Record SplitPdfOptions : Type := mkSplitOptions {
  mode : SplitMode;
  rangesStr : option jsstring
}.

(** One produced file: the pages of its document and its name. *)
Record SplitResult : Type := mkSplitResult {
  blob : PdfDocument;
  filename : jsstring
}.

(** The loop of the mode 'all' (lines 89-98), [count] rounds from page [i]. *)
Fixpoint splitAllFrom (pdfDoc : PdfDocument) (originalFileNameBase : jsstring)
    (i : Z) (count : nat) (results : list SplitResult)
    : outcome (list SplitResult) :=
  match count with
  | O => Done results
  | S n =>
      match copyPages pdfDoc [i] with
      | Some (copiedPage :: _) =>
          splitAllFrom pdfDoc originalFileNameBase (i + 1) n
            (results ++
             [{| blob := [copiedPage];
                 filename := originalFileNameBase ++ str "_page_"
                             ++ toString (i + 1) ++ str ".pdf" |}])
      | _ => Failed PageIndexOutOfRange
      end
  end.

(** The loop of the mode 'ranges' (lines 103-117). *)
Fixpoint splitSegments (pdfDoc : PdfDocument) (originalFileNameBase : jsstring)
    (rangeSegments : list jsstring) (results : list SplitResult)
    : outcome (list SplitResult) :=
  match rangeSegments with
  | [] => Done results
  | segment :: rest =>
      match parsePageRanges segment (getPageCount pdfDoc) with
      | Err e => Failed (ParseFailure e)
      | Ok [] => splitSegments pdfDoc originalFileNameBase rest results
      | Ok pagesToExtractIndices =>
          match copyPages pdfDoc pagesToExtractIndices with
          | Some copiedPages =>
              splitSegments pdfDoc originalFileNameBase rest
                (results ++
                 [{| blob := copiedPages;
                     filename := originalFileNameBase ++ str "_split_"
                                 ++ sanitizeSegment segment ++ str ".pdf" |}])
          | None => Failed PageIndexOutOfRange
          end
      end
  end.

Definition isEmptyString (s : jsstring) : bool :=
  match s with [] => true | _ => false end.

(** [rangesStr.split(',').map(s => s.trim()).filter(s => s)]. *)
Definition rangeSegmentsOf (rangesStr : jsstring) : list jsstring :=
  filter (fun s => negb (isEmptyString s)) (map trim (split "," rangesStr)).

(** [splitPdf] (lines 81-123). *)
Definition splitPdf (pdfFile : PdfFile) (options : SplitPdfOptions)
    : outcome (list SplitResult) :=
  let pdfDoc := filePages pdfFile in
  let totalPages := getPageCount pdfDoc in
  let originalFileNameBase := fileNameBase (fileName pdfFile) in
  let produced :=
    match mode options, rangesStr options with
    | all, _ =>
        splitAllFrom pdfDoc originalFileNameBase 0 (Z.to_nat totalPages) []
    | ranges, Some (c :: r) =>
        match rangeSegmentsOf (c :: r) with
        | [] => Failed NoRangesProvided
        | rangeSegments =>
            splitSegments pdfDoc originalFileNameBase rangeSegments []
        end
    | ranges, _ => Failed InvalidSplitMode
    end in
  match produced with
  | Done [] => Failed NoPdfsGenerated
  | other => other
  end.

(** The angles [RotatePdfOptions] allows. *)
Inductive Angle : Type :=
| deg90
| deg180
| deg270.

Definition angleValue (a : Angle) : Z :=
  match a with
  | deg90 => 90
  | deg180 => 180
  | deg270 => 270
  end.

Fixpoint replaceAt (doc : PdfDocument) (index : nat) (page : PdfPage)
    : PdfDocument :=
  match doc, index with
  | [], _ => []
  | _ :: rest, O => page :: rest
  | p :: rest, S n => p :: replaceAt rest n page
  end.

(** One round of the [forEach] of lines 156-161; [%] is the JS remainder,
    with the sign of the dividend. *)
Definition rotatePage (angle : Z) (pdfDoc : PdfDocument) (pageIndex : Z)
    : option PdfDocument :=
  match pageAt pdfDoc pageIndex with
  | None => None
  | Some page =>
      let currentRotation := rotation page in
      let newRotationAngle := Z.rem (currentRotation + angle) 360 in
      Some (replaceAt pdfDoc (Z.to_nat pageIndex)
              {| pageId := pageId page; rotation := newRotationAngle |})
  end.

Fixpoint rotateEach (angle : Z) (pdfDoc : PdfDocument) (indices : list Z)
    : option PdfDocument :=
  match indices with
  | [] => Some pdfDoc
  | pageIndex :: rest =>
      match rotatePage angle pdfDoc pageIndex with
      | Some pdfDoc' => rotateEach angle pdfDoc' rest
      | None => None
      end
  end.

(** [rotatePdfPages] (lines 130-164). *)
Definition rotatePdfPages (pdfDoc : PdfDocument) (pageRangesStr : jsstring)
    (angle : Angle) : outcome PdfDocument :=
  let totalPages := getPageCount pdfDoc in
  match parsePageRanges pageRangesStr totalPages with
  | Err e => Failed (ParseFailure e)
  | Ok [] => Failed NoPagesForRotation
  | Ok pagesToRotateIndices =>
      match rotateEach (angleValue angle) pdfDoc pagesToRotateIndices with
      | Some rotated => Done rotated
      | None => Failed PageIndexOutOfRange
      end
  end.

End PdfService.

(* ================================================================== *)
(** ** The colour and the position of the page numbers *)

Module PageNumberStyle.
Import Js.

Local Open Scope char_scope.

(** [[a-f\d]] under the flag i. *)
Definition isHexDigit (c : ascii) : bool :=
  let n := nat_of_ascii c in
  ((48 <=? n) && (n <=? 57) || (65 <=? n) && (n <=? 70)
   || (97 <=? n) && (n <=? 102))%nat.

Definition hexDigitValue (c : ascii) : Z :=
  let n := nat_of_ascii c in
  if (n <=? 57)%nat then Z.of_nat (n - 48)
  else if (n <=? 70)%nat then Z.of_nat (n - 55)
  else Z.of_nat (n - 87).

(** [parseInt(pair, 16)] on two hexadecimal digits. *)
Definition parseHexPair (h l : ascii) : Z :=
  (16 * hexDigitValue h + hexDigitValue l)%Z.

(** The optional # of both patterns. *)
Definition dropHash (s : jsstring) : jsstring :=
  match s with
  | "#" :: r => r
  | _ => s
  end.

(** [hex.replace(shorthandRegex, (m, r, g, b) => r + r + g + g + b + b)]:
    the whole text is replaced when it is an optional # and three digits. *)
Definition expandShorthand (hex : jsstring) : jsstring :=
  match dropHash hex with
  | [r; g; b] =>
      if isHexDigit r && isHexDigit g && isHexDigit b
      then [r; r; g; g; b; b]
      else hex
  | _ => hex
  end.

Record Rgb : Type := mkRgb {
  red : Q;
  green : Q;
  blue : Q
}.

(** [hexToRgb] (lines 167-176). *)
Definition hexToRgb (hex : jsstring) : Rgb :=
  match dropHash (expandShorthand hex) with
  | [r1; r2; g1; g2; b1; b2] =>
      if forallb isHexDigit [r1; r2; g1; g2; b1; b2]
      then {| red := parseHexPair r1 r2 # 255;
              green := parseHexPair g1 g2 # 255;
              blue := parseHexPair b1 b2 # 255 |}
      else {| red := 0; green := 0; blue := 0 |}
  | _ => {| red := 0; green := 0; blue := 0 |}
  end.

Inductive PageNumberPosition : Type :=
| TopLeft
| TopCenter
| TopRight
| BottomLeft
| BottomCenter
| BottomRight.

Local Open Scope Q_scope.

(** [const margin = 20] of line 207. *)
Definition textMargin : Q := 20.

(** The switch of lines 211-219 over exact rationals: where the text
    starts, for a page of [width] x [height] and a text of [textWidth] x
    [textHeight].  The source computes in doubles; this is its arithmetic
    without rounding. *)
Definition textOrigin (position : PageNumberPosition)
    (width height textWidth textHeight : Q) : Q * Q :=
  match position with
  | TopLeft => (textMargin, height - textHeight - textMargin)
  | TopCenter => ((width - textWidth) / 2, height - textHeight - textMargin)
  | TopRight => (width - textWidth - textMargin,
                 height - textHeight - textMargin)
  | BottomLeft => (textMargin, textMargin)
  | BottomCenter => ((width - textWidth) / 2, textMargin)
  | BottomRight => (width - textWidth - textMargin, textMargin)
  end.

End PageNumberStyle.

(* ================================================================== *)
(** ** The list of selected files and the routes of the application *)

Module Upload.
Import Js.

Local Open Scope Z_scope.

(** What [processFiles] looks at in a [File]. *)
Record UploadedFile : Type := mkUploaded {
  name : jsstring;
  size : Z
}.

Definition eqString (a b : jsstring) : bool :=
  if list_eq_dec Ascii.ascii_dec a b then true else false.

(** [sf.name === f.name && sf.size === f.size]. *)
Definition sameFile (sf f : UploadedFile) : bool :=
  eqString (name sf) (name f) && (size sf =? size f).

(** [processFiles] of the multi-file upload: the new list of selected
    files; a missing or empty [fileList] changes nothing. *)
Definition processFiles (selectedFiles : list UploadedFile)
    (fileList : option (list UploadedFile)) : list UploadedFile :=
  match fileList with
  | Some (f :: fs) =>
      let newFilesArray := f :: fs in
      selectedFiles ++
      filter (fun f => negb (existsb (fun sf => sameFile sf f) selectedFiles))
             newFilesArray
  | _ => selectedFiles
  end.

End Upload.

Module Routes.
Import Js.

Local Open Scope char_scope.

Inductive AppMode : Type :=
| SELECT
| WORD_TO_PDF
| MERGE_PDFS
| EXTRACT_PAGES
| SPLIT_PDF
| ROTATE_PDF
| ADD_PAGE_NUMBERS
| COMPRESS_PDF
| IMAGES_TO_PDF
| PRIVACY_POLICY
| ABOUT_US.

Definition eqMode (a b : AppMode) : bool :=
  match a, b with
  | SELECT, SELECT | WORD_TO_PDF, WORD_TO_PDF | MERGE_PDFS, MERGE_PDFS
  | EXTRACT_PAGES, EXTRACT_PAGES | SPLIT_PDF, SPLIT_PDF
  | ROTATE_PDF, ROTATE_PDF | ADD_PAGE_NUMBERS, ADD_PAGE_NUMBERS
  | COMPRESS_PDF, COMPRESS_PDF | IMAGES_TO_PDF, IMAGES_TO_PDF
  | PRIVACY_POLICY, PRIVACY_POLICY | ABOUT_US, ABOUT_US => true
  | _, _ => false
  end.

(** The own properties of [ROUTES], in the order they are written. *)
Definition ROUTES : list (jsstring * AppMode) :=
  [ (str "/", SELECT);
    (str "/lovepdf", SELECT);
    (str "/tools", SELECT);
    (str "/edit", SELECT);
    (str "/word-to-pdf", WORD_TO_PDF);
    (str "/merge-pdfs", MERGE_PDFS);
    (str "/extract-pages", EXTRACT_PAGES);
    (str "/split-pdf", SPLIT_PDF);
    (str "/rotate-pdf", ROTATE_PDF);
    (str "/add-page-numbers", ADD_PAGE_NUMBERS);
    (str "/compress-pdf", COMPRESS_PDF);
    (str "/images-to-pdf", IMAGES_TO_PDF);
    (str "/privacy-policy", PRIVACY_POLICY);
    (str "/about-us", ABOUT_US) ].

(** [ROUTES[key]] for the own properties.  The names an object inherits
    from its prototype (constructor, toString, ...) are not modelled; none of
    them starts with a slash, so the lookup is that of the source on every
    key that does. *)
Definition route (key : jsstring) : option AppMode :=
  match find (fun kv => Upload.eqString (fst kv) key) ROUTES with
  | Some (_, mode) => Some mode
  | None => None
  end.

(** The hash [navigateToMode] writes for a mode, without the leading #. *)
Definition targetHash (mode : AppMode) : jsstring :=
  let aliases := [str "/"; str "/tools"; str "/edit"; str "/lovepdf"] in
  match find (fun kv =>
                eqMode (snd kv) mode
                && negb (existsb (Upload.eqString (fst kv)) aliases))
             ROUTES with
  | Some (key, _) => key
  | None => match mode with SELECT => str "/" | _ => [] end
  end.

(** What the routing reads and writes: the mode of the application and
    [window.location.hash] (empty, or # and the address).  [resetState]
    clears the inputs of the tools, which the routing does not read. *)
Record AppState : Type := mkAppState {
  appMode : AppMode;
  locationHash : jsstring
}.

(** [navigateToMode(mode)] without an explicit hash (lines 416-429): the
    state after the call, and whether the hash was written, which fires a
    hashchange event. *)
Definition navigateToMode (mode : AppMode) (s : AppState) : AppState * bool :=
  let target := "#" :: targetHash mode in
  let hashDiffers := negb (Upload.eqString (locationHash s) target) in
  let appMode' :=
    if negb (eqMode (appMode s) mode) || hashDiffers then mode
    else appMode s in
  ({| appMode := appMode';
      locationHash := if hashDiffers then target else locationHash s |},
   hashDiffers).

(** The [appMode] the closure of [determineModeFromHash] sees: the effect
    runs once, at mount, so it is the initial state [AppMode.SELECT]. *)
Definition mountedAppMode : AppMode := SELECT.

(** One run of [determineModeFromHash] (lines 433-445). *)
Definition determineModeFromHash (s : AppState) : AppState :=
  let hash :=
    match locationHash s with "#" :: r => r | _ => locationHash s end in
  let newMode := match route hash with Some m => m | None => SELECT end in
  let appMode' :=
    if negb (eqMode mountedAppMode newMode) then newMode else appMode s in
  let unknown := match route hash with Some _ => false | None => true end in
  let locationHash' :=
    if unknown && eqMode newMode SELECT
       && negb (Upload.eqString hash []) && negb (Upload.eqString hash (str "/"))
    then if negb (Upload.eqString (locationHash s) (str "#/")) then str "#/"
         else locationHash s
    else locationHash s in
  {| appMode := appMode'; locationHash := locationHash' |}.

(** A hashchange event: the handler runs, and once more when it wrote the
    hash itself. *)
Definition onHashChange (s : AppState) : AppState :=
  let s1 := determineModeFromHash s in
  if Upload.eqString (locationHash s1) (locationHash s) then s1
  else determineModeFromHash s1.

(** [navigateToMode(mode)] and the event it fires. *)
Definition navigate (mode : AppMode) (s : AppState) : AppState :=
  let '(s1, fired) := navigateToMode mode s in
  if fired then onHashChange s1 else s1.

End Routes.

(* ================================================================== *)
(** ** Notions used to state the properties of the services *)

Module ServiceReference.
Import Js RangeParser PdfService PageNumberStyle.

Local Open Scope char_scope.
Local Open Scope Z_scope.

(** The zero-based index [v] is asked for by the comma-separated [part]:
    by its page number, or by its range cut at the last page. *)
Definition covers (maxPage : Z) (part : jsstring) (v : Z) : Prop :=
  let trimmedPart := trim part in
  if includes "-" trimmedPart then
    match parseInt (nth 0 (split "-" trimmedPart) []),
          parseInt (nth 1 (split "-" trimmedPart) []) with
    | Int start, Int end_ => start - 1 <= v <= Z.min end_ maxPage - 1
    | _, _ => False
    end
  else
    match parseInt trimmedPart with
    | Int pageNum => v = pageNum - 1
    | NaN => False
    end.

(** A text without white space at either end. *)
Definition headClean (s : jsstring) : bool :=
  match s with
  | [] => true
  | c :: _ => negb (isWhiteSpace c)
  end.

(** The page turned by [angle], as line 159 computes it. *)
Definition rotatedBy (angle : Z) (page : PdfPage) : PdfPage :=
  {| pageId := pageId page; rotation := Z.rem (rotation page + angle) 360 |}.

(** The page at position [k] is among the parsed indices. *)
Definition isSelected (indices : list Z) (k : nat) : bool :=
  existsb (Z.eqb (Z.of_nat k)) indices.

Definition black : Rgb := {| red := 0; green := 0; blue := 0 |}.

(** One file per page, numbered from [k] + 1 on. *)
Fixpoint onePerPage (base : jsstring) (k : Z) (pages : list PdfPage)
    : list SplitResult :=
  match pages with
  | [] => []
  | page :: rest =>
      {| blob := [page];
         filename := base ++ str "_page_" ++ toString (k + 1) ++ str ".pdf" |}
      :: onePerPage base (k + 1) rest
  end.

(** The file the mode 'ranges' produces for a segment: the pages the
    extraction of that segment gives, under the name made from it. *)
Definition segmentFile (pdfDoc : PdfDocument) (base : jsstring)
    (segment : jsstring) (result : SplitResult) : Prop :=
  extractPagesFromPdf pdfDoc segment = Done (blob result) /\
  filename result
  = base ++ str "_split_" ++ sanitizeSegment segment ++ str ".pdf".

(** The files of an upload that embed as images, with their sizes. *)
Definition embeddable (imageFiles : list (option (Q * Q))) : list (Q * Q) :=
  flat_map (fun f => match f with Some d => [d] | None => [] end) imageFiles.

(** The characters a sanitized segment is made of. *)
Definition allowedInName (c : ascii) : bool :=
  isAlnum c || Ascii.eqb c "-" || Ascii.eqb c "_".

End ServiceReference.

(* ================================================================== *)
(** ** Facts about the JS primitives *)

Module JsFacts.
Import Js Reference.

Local Open Scope char_scope.
Local Open Scope Z_scope.

#[local] Arguments isDigit : simpl never.
#[local] Arguments isWhiteSpace : simpl never.
#[local] Arguments digitValue : simpl never.
#[local] Arguments digitChar : simpl never.

Lemma digit_not_whitespace (c : ascii) :
  isDigit c = true -> isWhiteSpace c = false.
Proof.
  destruct c as [[] [] [] [] [] [] [] []]; vm_compute; congruence.
Qed.

Lemma digit_not_sep (c sep : ascii) :
  isDigit sep = false -> isDigit c = true -> Ascii.eqb c sep = false.
Proof.
  intros Hs Hc. destruct (Ascii.eqb_spec c sep); [subst; congruence | reflexivity].
Qed.

Lemma digitChar_spec (d : Z) :
  0 <= d < 10 -> isDigit (digitChar d) = true /\ digitValue (digitChar d) = d.
Proof.
  intros H.
  assert (E : d = 0 \/ d = 1 \/ d = 2 \/ d = 3 \/ d = 4 \/ d = 5 \/ d = 6
              \/ d = 7 \/ d = 8 \/ d = 9) by lia.
  repeat (destruct E as [-> | E]; [split; reflexivity |]).
  subst; split; reflexivity.
Qed.

Lemma digitsValue_snoc (l : jsstring) (c : ascii) :
  digitsValue (l ++ [c]) = 10 * digitsValue l + digitValue c.
Proof.
  unfold digitsValue. rewrite fold_left_app. reflexivity.
Qed.

Lemma digitsOf_spec (fuel : nat) :
  forall n, 0 <= n -> (Z.to_nat n < fuel)%nat ->
    digitsOf fuel n <> [] /\
    forallb isDigit (digitsOf fuel n) = true /\
    digitsValue (digitsOf fuel n) = n.
Proof.
  induction fuel as [| fuel IH]; intros n Hn Hf; [lia |].
  cbn [digitsOf]. destruct (n <? 10) eqn:E.
  - apply Z.ltb_lt in E.
    destruct (digitChar_spec n) as [A B]; [lia |].
    repeat split; [discriminate | cbn [forallb]; rewrite A; reflexivity |].
    unfold digitsValue; cbn [fold_left]. rewrite B. reflexivity.
  - apply Z.ltb_ge in E.
    assert (H0 : 0 <= n / 10) by (apply Z.div_pos; lia).
    assert (H1 : n / 10 < n) by (apply Z.div_lt; lia).
    destruct (IH (n / 10)) as (A & B & C); [lia | lia |].
    destruct (digitChar_spec (n mod 10)) as [D F];
      [apply Z.mod_pos_bound; lia |].
    repeat split.
    + destruct (digitsOf fuel (n / 10)); discriminate.
    + rewrite forallb_app, B. cbn [forallb]. rewrite D. reflexivity.
    + rewrite digitsValue_snoc, C, F.
      pose proof (Z_div_mod_eq_full n 10). lia.
Qed.

(** The decimal text of a natural number: digits only, at least one, and of
    the value printed. *)
Lemma toString_spec (n : Z) :
  0 <= n ->
  toString n <> [] /\
  forallb isDigit (toString n) = true /\
  digitsValue (toString n) = n.
Proof.
  intros Hn. unfold toString.
  destruct (n <? 0) eqn:E; [apply Z.ltb_lt in E; lia |].
  apply digitsOf_spec; lia.
Qed.

Lemma takeDigits_app (ds rest : jsstring) :
  forallb isDigit ds = true -> noLeadingDigit rest = true ->
  takeDigits (ds ++ rest) = ds.
Proof.
  intros Hd Hr. induction ds as [| d ds IH].
  - destruct rest as [| c rest]; [reflexivity |].
    cbn [noLeadingDigit] in Hr. apply negb_true_iff in Hr.
    cbn [app takeDigits]. rewrite Hr. reflexivity.
  - cbn [forallb] in Hd. apply andb_true_iff in Hd as [Hd1 Hd2].
    cbn [app takeDigits]. rewrite Hd1, IH; auto.
Qed.

Lemma readSign_digit (d : ascii) (r : jsstring) :
  isDigit d = true -> readSign (d :: r) = (1, d :: r).
Proof.
  intros Hd.
  destruct d as [[] [] [] [] [] [] [] []]; try reflexivity;
    vm_compute in Hd; discriminate.
Qed.

(** [parseInt] reads a run of digits and ignores what follows it. *)
Lemma parseInt_digits (ds rest : jsstring) :
  ds <> [] -> forallb isDigit ds = true -> noLeadingDigit rest = true ->
  parseInt (ds ++ rest) = Int (digitsValue ds).
Proof.
  intros Hne Hd Hr.
  destruct ds as [| d ds]; [congruence |].
  pose proof (takeDigits_app (d :: ds) rest Hd Hr) as T.
  cbn [forallb] in Hd. apply andb_true_iff in Hd as [Hd1 Hd2].
  unfold parseInt. cbn [app trimStart] in *.
  rewrite (digit_not_whitespace d Hd1), (readSign_digit d _ Hd1), T.
  f_equal. lia.
Qed.

Lemma trimStart_digits (ds rest : jsstring) :
  ds <> [] -> forallb isDigit ds = true ->
  trimStart (ds ++ rest) = ds ++ rest.
Proof.
  intros Hne Hd. destruct ds as [| d ds]; [congruence |].
  cbn [forallb] in Hd. apply andb_true_iff in Hd as [Hd1 _].
  cbn [app trimStart]. rewrite (digit_not_whitespace d Hd1). reflexivity.
Qed.

Lemma forallb_rev (f : ascii -> bool) (l : jsstring) :
  forallb f l = true -> forallb f (rev l) = true.
Proof.
  rewrite !forallb_forall. intros H c Hc. apply H, in_rev, Hc.
Qed.

(** A text that starts and ends with a digit is left alone by [trim]. *)
Lemma trim_between_digits (ds mid de : jsstring) :
  ds <> [] -> de <> [] ->
  forallb isDigit ds = true -> forallb isDigit de = true ->
  trim (ds ++ mid ++ de) = ds ++ mid ++ de.
Proof.
  intros Hs He Ds De. unfold trim, trimEnd.
  rewrite (trimStart_digits ds (mid ++ de) Hs Ds).
  rewrite app_assoc, rev_app_distr.
  rewrite trimStart_digits.
  - rewrite <- rev_app_distr, rev_involutive. reflexivity.
  - intros E. apply (f_equal (@rev ascii)) in E.
    rewrite rev_involutive in E. exact (He E).
  - apply forallb_rev, De.
Qed.

Lemma trim_digits (ds : jsstring) :
  ds <> [] -> forallb isDigit ds = true -> trim ds = ds.
Proof.
  intros Hne Hd. unfold trim, trimEnd.
  rewrite <- (app_nil_r ds) at 1. rewrite (trimStart_digits ds [] Hne Hd).
  rewrite app_nil_r.
  rewrite <- (app_nil_r (rev ds)). rewrite trimStart_digits.
  - rewrite app_nil_r. apply rev_involutive.
  - intros E. apply (f_equal (@rev ascii)) in E.
    rewrite rev_involutive in E. exact (Hne E).
  - apply forallb_rev, Hd.
Qed.

Lemma includes_digits (c : ascii) (ds : jsstring) :
  isDigit c = false -> forallb isDigit ds = true -> includes c ds = false.
Proof.
  intros Hc Hd. unfold includes. induction ds as [| d ds IH]; [reflexivity |].
  cbn [forallb] in Hd. apply andb_true_iff in Hd as [Hd1 Hd2].
  cbn [existsb]. rewrite (IH Hd2), orb_false_r.
  destruct (Ascii.eqb_spec c d); [subst; congruence | reflexivity].
Qed.

Lemma includes_app (c : ascii) (a b : jsstring) :
  includes c (a ++ b) = includes c a || includes c b.
Proof. apply existsb_app. Qed.

Lemma split_without (sep : ascii) (s : jsstring) :
  includes sep s = false -> split sep s = [s].
Proof.
  unfold includes. induction s as [| c s IH]; [reflexivity |].
  cbn [existsb split]. intros H. apply orb_false_iff in H as [H1 H2].
  rewrite Ascii.eqb_sym, H1, (IH H2). reflexivity.
Qed.

Lemma split_at_first (sep : ascii) (a b : jsstring) :
  includes sep a = false -> split sep (a ++ sep :: b) = a :: split sep b.
Proof.
  unfold includes. induction a as [| c a IH]; intros H.
  - cbn [app split]. rewrite Ascii.eqb_refl. reflexivity.
  - cbn [existsb] in H. apply orb_false_iff in H as [H1 H2].
    cbn [app split]. rewrite Ascii.eqb_sym, H1, (IH H2). reflexivity.
Qed.

(** *** The set and the sort *)

Lemma setAdd_In (v : Z) (s : NumberSet) (x : Z) :
  In x (setAdd v s) <-> x = v \/ In x s.
Proof. unfold setAdd. apply set_add_iff. Qed.

Lemma setAdd_NoDup (v : Z) (s : NumberSet) :
  NoDup s -> NoDup (setAdd v s).
Proof. unfold setAdd. apply set_add_nodup. Qed.

Lemma setAdd_fresh (v : Z) (s : NumberSet) :
  ~ In v s -> setAdd v s = s ++ [v].
Proof.
  unfold setAdd. induction s as [| a s IH]; intros H; [reflexivity |].
  cbn [set_add]. destruct (Z.eq_dec v a) as [-> | N].
  - exfalso. apply H. left. reflexivity.
  - rewrite IH; [reflexivity |]. intros I. apply H. right. exact I.
Qed.

Lemma insertSorted_In (a : Z) (l : list Z) (x : Z) :
  In x (insertSorted a l) <-> x = a \/ In x l.
Proof.
  induction l as [| b l IH]; cbn [insertSorted].
  - simpl. intuition.
  - destruct (a <=? b); simpl; simpl in IH; intuition.
Qed.

Lemma insertSorted_sorted (a : Z) (l : list Z) :
  StronglySorted Z.lt l -> ~ In a l -> StronglySorted Z.lt (insertSorted a l).
Proof.
  induction 1 as [| b l Hl IH Hb]; intros Hn; cbn [insertSorted].
  - constructor; constructor.
  - destruct (a <=? b) eqn:E.
    + apply Z.leb_le in E.
      assert (a < b) by (assert (a <> b) by (intros ->; apply Hn; left; reflexivity); lia).
      constructor; [constructor; assumption |].
      constructor; [assumption |].
      rewrite Forall_forall in *. intros y Hy. specialize (Hb y Hy). lia.
    + apply Z.leb_gt in E.
      constructor.
      * apply IH. intros I. apply Hn. right. exact I.
      * rewrite Forall_forall in *. intros y Hy.
        apply insertSorted_In in Hy as [-> | Hy]; [lia | auto].
Qed.

Lemma sortNumeric_In (l : list Z) (x : Z) :
  In x (sortNumeric l) <-> In x l.
Proof.
  induction l as [| a l IH]; [reflexivity |].
  cbn [sortNumeric]. rewrite insertSorted_In, IH. simpl. intuition.
Qed.

Lemma sortNumeric_sorted (l : list Z) :
  NoDup l -> StronglySorted Z.lt (sortNumeric l).
Proof.
  induction 1 as [| a l Ha Hl IH]; cbn [sortNumeric]; [constructor |].
  apply insertSorted_sorted; [exact IH |].
  rewrite sortNumeric_In. exact Ha.
Qed.

Lemma sortNumeric_id (l : list Z) :
  StronglySorted Z.lt l -> sortNumeric l = l.
Proof.
  induction 1 as [| a l Hl IH Ha]; [reflexivity |].
  cbn [sortNumeric]. rewrite IH.
  destruct l as [| b l]; [reflexivity |].
  cbn [insertSorted]. inversion Ha as [| ? ? Hab _]; subst.
  destruct (a <=? b) eqn:E; [reflexivity |].
  apply Z.leb_gt in E. lia.
Qed.

Lemma sorted_lt_NoDup (l : list Z) :
  StronglySorted Z.lt l -> NoDup l.
Proof.
  induction 1 as [| a l Hl IH Ha]; constructor; [| exact IH].
  intros I. rewrite Forall_forall in Ha. specialize (Ha a I). lia.
Qed.

Lemma consecutive_In (n : nat) :
  forall lo x, In x (consecutive lo n) <-> lo <= x < lo + Z.of_nat n.
Proof.
  induction n as [| n IH]; intros lo x; cbn [consecutive].
  - simpl. lia.
  - simpl In. rewrite IH. lia.
Qed.

Lemma consecutive_sorted (n : nat) :
  forall lo, StronglySorted Z.lt (consecutive lo n).
Proof.
  induction n as [| n IH]; intros lo; cbn [consecutive]; constructor.
  - apply IH.
  - rewrite Forall_forall. intros y Hy. apply consecutive_In in Hy. lia.
Qed.

End JsFacts.

(* ================================================================== *)
(** ** Facts about the range parser *)

Module RangeParserFacts.
Import Js Reference RangeParser JsFacts.

Local Open Scope char_scope.
Local Open Scope Z_scope.

#[local] Arguments isDigit : simpl never.
#[local] Arguments parseInt : simpl never.
#[local] Arguments trim : simpl never.

Lemma addRange_In (n : nat) :
  forall i acc x,
    In x (addRange i n acc) <-> In x acc \/ i - 1 <= x < i - 1 + Z.of_nat n.
Proof.
  induction n as [| n IH]; intros i acc x; cbn [addRange].
  - intuition lia.
  - rewrite IH, setAdd_In, Nat2Z.inj_succ. intuition lia.
Qed.

Lemma addRange_NoDup (n : nat) :
  forall i acc, NoDup acc -> NoDup (addRange i n acc).
Proof.
  induction n as [| n IH]; intros i acc H; cbn [addRange]; [exact H |].
  apply IH, setAdd_NoDup, H.
Qed.

(** Adding pages that are all beyond the ones present appends them. *)
Lemma addRange_fresh (n : nat) :
  forall i acc,
    (forall x, In x acc -> x < i - 1) ->
    addRange i n acc = acc ++ consecutive (i - 1) n.
Proof.
  induction n as [| n IH]; intros i acc H; cbn [addRange consecutive].
  - symmetry. apply app_nil_r.
  - rewrite setAdd_fresh.
    + rewrite IH.
      * rewrite <- app_assoc. cbn [app].
        replace (i + 1 - 1) with (i - 1 + 1) by lia. reflexivity.
      * intros x Hx. apply in_app_or in Hx as [Hx | [<- | []]].
        -- specialize (H x Hx). lia.
        -- lia.
    + intros I. specialize (H _ I). lia.
Qed.

Lemma processPart_collected (maxPage : Z) (acc acc' : NumberSet)
    (part : jsstring) :
  collected maxPage acc -> processPart maxPage acc part = Ok acc' ->
  collected maxPage acc'.
Proof.
  intros [Hn Hb]. unfold processPart.
  destruct (includes "-" (trim part)).
  - destruct (split "-" (trim part)) as [| startStr [| endStr rest]];
      try discriminate.
    destruct (parseInt startStr) as [| start]; try discriminate.
    destruct (parseInt endStr) as [| end_]; try discriminate.
    destruct ((start <? 1) || (end_ <? start) || (start >? maxPage)) eqn:E;
      try discriminate.
    intros [= <-].
    apply orb_false_iff in E as [E E3]. apply orb_false_iff in E as [E1 E2].
    apply Z.ltb_ge in E1, E2. rewrite Z.gtb_ltb in E3. apply Z.ltb_ge in E3.
    split; [apply addRange_NoDup, Hn |].
    intros i Hi. apply addRange_In in Hi as [Hi | Hi]; [auto | lia].
  - destruct (parseInt (trim part)) as [| pageNum]; try discriminate.
    destruct ((pageNum <? 1) || (pageNum >? maxPage)) eqn:E; try discriminate.
    intros [= <-].
    apply orb_false_iff in E as [E1 E2].
    apply Z.ltb_ge in E1. rewrite Z.gtb_ltb in E2. apply Z.ltb_ge in E2.
    split; [apply setAdd_NoDup, Hn |].
    intros i Hi. apply setAdd_In in Hi as [-> | Hi]; [lia | auto].
Qed.

Lemma processParts_collected (maxPage : Z) (parts : list jsstring) :
  forall acc acc',
    collected maxPage acc -> processParts maxPage acc parts = Ok acc' ->
    collected maxPage acc'.
Proof.
  induction parts as [| part parts IH]; intros acc acc' Hc; cbn [processParts].
  - intros [= <-]. exact Hc.
  - destruct (processPart maxPage acc part) as [acc1 | e] eqn:E;
      cbn [bind]; [| discriminate].
    apply IH. exact (processPart_collected _ _ _ _ Hc E).
Qed.

(** A part that is empty once trimmed is rejected as a page number. *)
Lemma processPart_empty (maxPage : Z) (acc : NumberSet) (part : jsstring) :
  trim part = [] -> processPart maxPage acc part = Err InvalidPageNumber.
Proof.
  intros E. unfold processPart. rewrite E. reflexivity.
Qed.

Lemma processParts_empty_part (maxPage : Z) (parts : list jsstring) :
  forall acc, (exists part, In part parts /\ trim part = []) ->
    exists e, processParts maxPage acc parts = Err e.
Proof.
  induction parts as [| p parts IH]; intros acc (part & Hin & Ht).
  - destruct Hin.
  - cbn [processParts].
    destruct (processPart maxPage acc p) as [acc1 | e] eqn:E; cbn [bind].
    + destruct Hin as [-> | Hin].
      * rewrite (processPart_empty _ _ _ Ht) in E. discriminate.
      * apply IH. exists part. split; assumption.
    + exists e. reflexivity.
Qed.

(** An expression that is not blank but has a blank segment between its
    commas is rejected: nothing discards the segment. *)
Lemma parse_blank_segment_rejected (expression : jsstring) (maxPage : Z) :
  trim expression <> [] ->
  (exists part, In part (split "," expression) /\ trim part = []) ->
  exists e, parsePageRanges expression maxPage = Err e.
Proof.
  intros Hne Hp. unfold parsePageRanges.
  destruct (trim expression) as [| c t]; [congruence |].
  destruct (processParts_empty_part maxPage _ [] Hp) as [e E].
  rewrite E. exists e. reflexivity.
Qed.

(** An expression without a comma is handled as one part. *)
Lemma parse_single_part (expression : jsstring) (maxPage : Z) :
  trim expression <> [] -> includes "," expression = false ->
  parsePageRanges expression maxPage
  = bind (processPart maxPage [] expression)
         (fun resultPages => Ok (sortNumeric resultPages)).
Proof.
  intros Hne Hc. unfold parsePageRanges.
  destruct (trim expression) as [| c t]; [congruence |].
  rewrite (split_without _ _ Hc). cbn [processParts].
  destruct (processPart maxPage [] expression); reflexivity.
Qed.

Lemma parseInt_all_digits (ds : jsstring) :
  ds <> [] -> forallb isDigit ds = true -> parseInt ds = Int (digitsValue ds).
Proof.
  intros Hne Hd. rewrite <- (app_nil_r ds) at 1.
  apply parseInt_digits; auto.
Qed.

(** A part made of two runs of digits around a dash. *)
Lemma processPart_range_digits (maxPage : Z) (acc : NumberSet)
    (ds de : jsstring) :
  ds <> [] -> de <> [] ->
  forallb isDigit ds = true -> forallb isDigit de = true ->
  processPart maxPage acc (ds ++ "-" :: de)
  = if (digitsValue ds <? 1) || (digitsValue de <? digitsValue ds)
       || (digitsValue ds >? maxPage)
    then Err InvalidRange
    else Ok (addRange (digitsValue ds)
               (Z.to_nat (Z.min (digitsValue de) maxPage - digitsValue ds + 1))
               acc).
Proof.
  intros Hs He Ds De. unfold processPart.
  change (ds ++ "-" :: de) with (ds ++ ["-"] ++ de).
  rewrite (trim_between_digits ds ["-"] de Hs He Ds De).
  cbn [app].
  assert (I : includes "-" (ds ++ "-" :: de) = true).
  { rewrite includes_app. apply orb_true_iff. right. reflexivity. }
  rewrite I.
  rewrite split_at_first by (apply includes_digits; [reflexivity | exact Ds]).
  rewrite split_without by (apply includes_digits; [reflexivity | exact De]).
  rewrite (parseInt_all_digits ds Hs Ds), (parseInt_all_digits de He De).
  reflexivity.
Qed.

(** A part made of one run of digits. *)
Lemma processPart_page_digits (maxPage : Z) (acc : NumberSet)
    (ds : jsstring) :
  ds <> [] -> forallb isDigit ds = true ->
  processPart maxPage acc ds
  = if (digitsValue ds <? 1) || (digitsValue ds >? maxPage)
    then Err InvalidPageNumber
    else Ok (setAdd (digitsValue ds - 1) acc).
Proof.
  intros Hne Hd. unfold processPart.
  rewrite (trim_digits ds Hne Hd).
  rewrite (includes_digits "-" ds) by (reflexivity || exact Hd).
  rewrite (parseInt_all_digits ds Hne Hd). reflexivity.
Qed.

(** The expression "start-end" with an end beyond the document. *)
Lemma parse_range_beyond_end (maxPage : Z) (ds de : jsstring) :
  ds <> [] -> de <> [] ->
  forallb isDigit ds = true -> forallb isDigit de = true ->
  1 <= digitsValue ds <= maxPage -> maxPage < digitsValue de ->
  parsePageRanges (ds ++ "-" :: de) maxPage
  = Ok (consecutive (digitsValue ds - 1)
          (Z.to_nat (maxPage - digitsValue ds + 1))).
Proof.
  intros Hs He Ds De Hb Hover.
  rewrite parse_single_part.
  - rewrite (processPart_range_digits maxPage [] ds de Hs He Ds De).
    replace ((digitsValue ds <? 1) || (digitsValue de <? digitsValue ds)
             || (digitsValue ds >? maxPage)) with false.
    + cbn [bind]. rewrite addRange_fresh by (intros x []).
      cbn [app]. rewrite Z.min_r by lia.
      rewrite sortNumeric_id by apply consecutive_sorted. reflexivity.
    + symmetry. rewrite Z.gtb_ltb. repeat (apply orb_false_iff; split);
        apply Z.ltb_ge; lia.
  - change (ds ++ "-" :: de) with (ds ++ ["-"] ++ de).
    rewrite (trim_between_digits ds ["-"] de Hs He Ds De).
    destruct ds; [congruence | discriminate].
  - rewrite includes_app.
    rewrite (includes_digits "," ds) by (reflexivity || exact Ds).
    cbn [orb]. unfold includes. cbn [existsb].
    change (existsb (Ascii.eqb ",") de) with (includes "," de).
    rewrite (includes_digits "," de) by (reflexivity || exact De).
    reflexivity.
Qed.

(** The expression made of one page number beyond the document. *)
Lemma parse_page_beyond_end (maxPage : Z) (ds : jsstring) :
  ds <> [] -> forallb isDigit ds = true -> maxPage < digitsValue ds ->
  parsePageRanges ds maxPage = Err InvalidPageNumber.
Proof.
  intros Hne Hd Hover.
  rewrite parse_single_part.
  - rewrite (processPart_page_digits maxPage [] ds Hne Hd).
    replace (digitsValue ds >? maxPage) with true.
    + rewrite orb_true_r. reflexivity.
    + symmetry. rewrite Z.gtb_ltb. apply Z.ltb_lt. lia.
  - rewrite (trim_digits ds Hne Hd). exact Hne.
  - apply includes_digits; [reflexivity | exact Hd].
Qed.

End RangeParserFacts.

(* ================================================================== *)
(** ** The range parser: the properties of the specification *)

Module RangeParserTheorems.
Import Js Reference RangeParser JsFacts RangeParserFacts.

Local Open Scope char_scope.
Local Open Scope Z_scope.

(** C1. On a 10-page document "1-100" is accepted and clamped to the pages
    0..9 while "101" is rejected as a page number; for every document of at
    least one page, a range that starts inside the document and ends beyond
    it yields the pages from its start to the last one, and a lone page
    number beyond the document is rejected with InvalidPageNumber. *)
Theorem range_end_clamped_lone_page_rejected :
  parsePageRanges (str "1-100") 10 = Ok [0; 1; 2; 3; 4; 5; 6; 7; 8; 9] /\
  parsePageRanges (str "101") 10 = Err InvalidPageNumber /\
  (forall totalPages start end_,
      1 <= totalPages -> 1 <= start <= totalPages -> totalPages < end_ ->
      parsePageRanges (toString start ++ str "-" ++ toString end_) totalPages
      = Ok (consecutive (start - 1) (Z.to_nat (totalPages - start + 1)))) /\
  (forall totalPages page,
      1 <= totalPages -> totalPages < page ->
      parsePageRanges (toString page) totalPages = Err InvalidPageNumber).
Proof.
  split; [reflexivity |]. split; [reflexivity |]. split.
  - intros totalPages start end_ Ht Hs He.
    destruct (toString_spec start) as (S1 & S2 & S3); [lia |].
    destruct (toString_spec end_) as (E1 & E2 & E3); [lia |].
    change (toString start ++ str "-" ++ toString end_)
      with (toString start ++ "-" :: toString end_).
    rewrite parse_range_beyond_end; auto; rewrite ?S3, ?E3; auto; lia.
  - intros totalPages page Ht Hp.
    destruct (toString_spec page) as (P1 & P2 & P3); [lia |].
    apply parse_page_beyond_end; auto. rewrite P3. exact Hp.
Qed.

Lemma range_end_clamped_lone_page_rejected_witness :
  parsePageRanges (toString 3 ++ str "-" ++ toString 50) 7
    = Ok (consecutive (3 - 1) (Z.to_nat (7 - 3 + 1))) /\
  parsePageRanges (toString 12) 7 = Err InvalidPageNumber.
Proof.
  split.
  - apply (proj1 (proj2 (proj2 range_end_clamped_lone_page_rejected))); lia.
  - apply (proj2 (proj2 (proj2 range_end_clamped_lone_page_rejected))); lia.
Defined.

(** C2. Whenever the parse succeeds, the pages returned are strictly
    ascending, without duplicates, and each index i has 0 <= i < totalPages;
    "1,1,2" on 5 pages gives the pages 0 and 1. *)
Theorem parse_result_ascending_distinct_bounded
    (expression : jsstring) (totalPages : Z) (pages : list Z) :
  parsePageRanges expression totalPages = Ok pages ->
  (StronglySorted Z.lt pages /\
   NoDup pages /\
   Forall (fun i => 0 <= i < totalPages) pages) /\
  parsePageRanges (str "1,1,2") 5 = Ok [0; 1].
Proof.
  intros H. split; [| reflexivity].
  unfold parsePageRanges in H.
  destruct (trim expression) as [| c t].
  - injection H as <-. repeat split; constructor.
  - destruct (processParts totalPages [] (split "," expression))
      as [acc | e] eqn:E; cbn [bind] in H; [| discriminate].
    injection H as <-.
    assert (C : collected totalPages acc).
    { apply (processParts_collected _ _ _ _ (conj (NoDup_nil Z)
               (fun i (F : In i []) => match F with end)) E). }
    destruct C as [Hn Hb].
    pose proof (sortNumeric_sorted acc Hn) as Hs.
    repeat split.
    + exact Hs.
    + apply sorted_lt_NoDup, Hs.
    + apply Forall_forall. intros i Hi. apply Hb, sortNumeric_In, Hi.
Qed.

Lemma parse_result_ascending_distinct_bounded_witness :
  (StronglySorted Z.lt [0; 1; 2; 4; 6; 7; 8] /\
   NoDup [0; 1; 2; 4; 6; 7; 8] /\
   Forall (fun i => 0 <= i < 10) [0; 1; 2; 4; 6; 7; 8]) /\
  parsePageRanges (str "1,1,2") 5 = Ok [0; 1].
Proof.
  apply (parse_result_ascending_distinct_bounded
           (str " 7 - 9, 5 ,1-3, 2") 10).
  reflexivity.
Defined.

(** C3 (the code departs from it). Empty segments are not discarded: "1,,2"
    and "1,2," on 5 pages are rejected with InvalidPageNumber, although
    "1,2" gives the pages 0 and 1. *)
Theorem empty_segment_rejected :
  parsePageRanges (str "1,,2") 5 = Err InvalidPageNumber /\
  parsePageRanges (str "1,2,") 5 = Err InvalidPageNumber /\
  parsePageRanges (str "1,2") 5 = Ok [0; 1].
Proof. repeat split; reflexivity. Qed.

(** C5, the claim as stated, fails: on 10 pages the segment "1-3abc" has
    the end token "3abc", which is no base-10 integer, and is accepted. *)
Lemma strict_range_rule_fails : ~ strictRangeRule 10 (str "1-3abc").
Proof.
  unfold strictRangeRule. intros [_ H].
  assert (E : parsePageRanges (str "1-3abc") 10 = Ok [0; 1; 2])
    by reflexivity.
  rewrite E in H. discriminate H.
  right. left. reflexivity.
Qed.

(** C5 (amended). For a part whose trimmed text has a dash, with [startStr]
    and [endStr] the first two of its dash-separated pieces: the round fails
    with InvalidRange exactly when [parseInt] finds no leading integer in one
    of them, or start < 1, or end < start, or start > totalPages; otherwise
    the result set gains exactly the indices start-1 .. min(end,totalPages)-1. *)
Theorem range_segment_rule
    (totalPages : Z) (resultPages : NumberSet) (part : jsstring) :
  includes "-" (trim part) = true ->
  let startStr := nth 0 (split "-" (trim part)) [] in
  let endStr := nth 1 (split "-" (trim part)) [] in
  (processPart totalPages resultPages part = Err InvalidRange <->
     match parseInt startStr, parseInt endStr with
     | Int start, Int end_ =>
         start < 1 \/ end_ < start \/ totalPages < start
     | _, _ => True
     end) /\
  (forall start end_,
      parseInt startStr = Int start -> parseInt endStr = Int end_ ->
      1 <= start -> start <= end_ -> start <= totalPages ->
      exists pages,
        processPart totalPages resultPages part = Ok pages /\
        forall v, In v pages <->
                  (In v resultPages
                   \/ start - 1 <= v <= Z.min end_ totalPages - 1)).
Proof.
  intros Hi startStr endStr. subst startStr endStr.
  unfold processPart. rewrite Hi.
  destruct (split "-" (trim part)) as [| a [| b rest]]; cbn [nth].
  - change (parseInt []) with NaN. split; [tauto | discriminate].
  - change (parseInt []) with NaN.
    split; [destruct (parseInt a); tauto | discriminate].
  - destruct (parseInt a) as [| start]; [split; [tauto | discriminate] |].
    destruct (parseInt b) as [| end_]; [split; [tauto | discriminate] |].
    destruct ((start <? 1) || (end_ <? start) || (start >? totalPages)) eqn:E.
    + apply orb_true_iff in E as [E | E];
        [apply orb_true_iff in E as [E | E] |];
        rewrite ?Z.gtb_ltb in E; apply Z.ltb_lt in E;
        (split; [split; [intros _; lia | reflexivity] |]);
        intros s e [= <-] [= <-]; lia.
    + apply orb_false_iff in E as [E E3]. apply orb_false_iff in E as [E1 E2].
      apply Z.ltb_ge in E1, E2. rewrite Z.gtb_ltb in E3. apply Z.ltb_ge in E3.
      split; [split; [discriminate | lia] |].
      intros s e [= <-] [= <-] H1 H2 H3.
      eexists. split; [reflexivity |].
      intros v. rewrite addRange_In. intuition lia.
Qed.

Lemma range_segment_rule_witness :
  exists pages,
    processPart 10 [] (str " 2 - 30x ") = Ok pages /\
    forall v, In v pages <-> (In v [] \/ 2 - 1 <= v <= Z.min 30 10 - 1).
Proof.
  apply (proj2 (range_segment_rule 10 [] (str " 2 - 30x ") eq_refl)
           2 30 eq_refl eq_refl); lia.
Defined.

(** C6, the claim as stated, fails: on 10 pages the segment "3abc" is no
    base-10 integer and is accepted as page 3. *)
Lemma strict_page_rule_fails : ~ strictPageRule 10 (str "3abc").
Proof.
  unfold strictPageRule. intros [_ H].
  assert (E : parsePageRanges (str "3abc") 10 = Ok [2]) by reflexivity.
  rewrite E in H. discriminate H.
  left. reflexivity.
Qed.

(** C6 (amended). For a part whose trimmed text has no dash: the round fails
    with InvalidPageNumber exactly when [parseInt] finds no leading integer
    in it, or that integer is outside [1, totalPages]; otherwise value - 1 is
    added to the result set.  [parseInt] reads a leading run of digits and
    ignores the text after it. *)
Theorem page_segment_rule
    (totalPages : Z) (resultPages : NumberSet) (part : jsstring) :
  includes "-" (trim part) = false ->
  (processPart totalPages resultPages part = Err InvalidPageNumber <->
     match parseInt (trim part) with
     | Int value => value < 1 \/ totalPages < value
     | NaN => True
     end) /\
  (forall value,
      parseInt (trim part) = Int value -> 1 <= value <= totalPages ->
      processPart totalPages resultPages part
      = Ok (setAdd (value - 1) resultPages)) /\
  (forall digits rest,
      digits <> [] -> forallb isDigit digits = true ->
      noLeadingDigit rest = true ->
      parseInt (digits ++ rest) = Int (digitsValue digits)).
Proof.
  intros Hi. unfold processPart. rewrite Hi.
  split; [| split; [| exact parseInt_digits]].
  - destruct (parseInt (trim part)) as [| value]; [tauto |].
    destruct ((value <? 1) || (value >? totalPages)) eqn:E.
    + apply orb_true_iff in E as [E | E];
        rewrite ?Z.gtb_ltb in E; apply Z.ltb_lt in E;
        (split; [intros _; lia | reflexivity]).
    + apply orb_false_iff in E as [E1 E2].
      apply Z.ltb_ge in E1. rewrite Z.gtb_ltb in E2. apply Z.ltb_ge in E2.
      split; [discriminate | lia].
  - intros value -> Hb.
    replace ((value <? 1) || (value >? totalPages)) with false; [reflexivity |].
    symmetry. rewrite Z.gtb_ltb. apply orb_false_iff.
    split; apply Z.ltb_ge; lia.
Qed.

Lemma page_segment_rule_witness :
  processPart 10 [4] (str " 3abc") = Ok (setAdd (3 - 1) [4]).
Proof.
  apply (proj1 (proj2 (page_segment_rule 10 [4] (str " 3abc") eq_refl)) 3
           eq_refl).
  lia.
Defined.

End RangeParserTheorems.

(* ================================================================== *)
(** ** The image page-fit layout: the properties of the specification *)

Module PageFitTheorems.
Import Reference PageFit.

Local Open Scope Q_scope.

Lemma Qgtb_true (a b : Q) : Qgtb a b = true <-> b < a.
Proof.
  unfold Qgtb. rewrite (Qgt_alt a b).
  destruct (a ?= b); split; congruence.
Qed.

Lemma Qgtb_false (a b : Q) : Qgtb a b = false <-> a <= b.
Proof.
  unfold Qgtb. rewrite (Qle_alt a b).
  destruct (a ?= b); split; congruence.
Qed.

(** The rectangle in the branch of the wider image. *)
Lemma computeFit_wider (m iw ih pw ph : Q) :
  (pw - 2 * m) / (ph - 2 * m) < iw / ih ->
  computeFit m iw ih pw ph
  = {| x := m + ((pw - 2 * m) - (pw - 2 * m)) / 2;
       y := m + ((ph - 2 * m) - (pw - 2 * m) / (iw / ih)) / 2;
       width := pw - 2 * m;
       height := (pw - 2 * m) / (iw / ih) |}.
Proof.
  intros H. unfold computeFit.
  rewrite (proj2 (Qgtb_true _ _) H). reflexivity.
Qed.

(** The rectangle in the branch of the taller (or equally shaped) image. *)
Lemma computeFit_taller (m iw ih pw ph : Q) :
  iw / ih <= (pw - 2 * m) / (ph - 2 * m) ->
  computeFit m iw ih pw ph
  = {| x := m + ((pw - 2 * m) - (ph - 2 * m) * (iw / ih)) / 2;
       y := m + ((ph - 2 * m) - (ph - 2 * m)) / 2;
       width := (ph - 2 * m) * (iw / ih);
       height := ph - 2 * m |}.
Proof.
  intros H. unfold computeFit.
  rewrite (proj2 (Qgtb_false _ _) H). reflexivity.
Qed.

(** C4, the claim as stated, fails: a page 30 points wide leaves no
    available width, and the image is placed all the same. *)
Lemma margin_too_large_rule_fails : ~ marginTooLargeRule 30 800 200 100.
Proof.
  unfold marginTooLargeRule. intros H.
  assert (N : 30 - 2 * margin <= 0 \/ 800 - 2 * margin <= 0)
    by (left; vm_compute; discriminate).
  specialize (H N). vm_compute in H. discriminate H.
Qed.

(** C4 (amended). The layout has no failure for its margin: whatever the
    files and options, [convertImagesToPdf] does not throw MarginTooLarge,
    and one embedded image on a page of any size is placed by the layout
    arithmetic with the margin 20. *)
Theorem layout_never_throws_margin_too_large :
  (forall imageFiles options,
      convertImagesToPdf imageFiles options <> Thrown MarginTooLarge) /\
  (forall imageWidth imageHeight pageWidth pageHeight,
      convertImagesToPdf
        [Some (imageWidth, imageHeight)]
        (Some (mkOptions (Some (Custom pageWidth pageHeight)) None))
      = Saved [mkPage pageWidth pageHeight
                 (computeFit 20 imageWidth imageHeight pageWidth pageHeight)]).
Proof.
  split.
  - intros imageFiles options. unfold convertImagesToPdf.
    destruct imageFiles as [| f fs]; [discriminate |].
    destruct (flat_map _ (f :: fs)); discriminate.
  - reflexivity.
Qed.

(** Half of the slack on each side: the gaps before and after are equal. *)
Lemma centred_gaps (m page draw : Q) :
  (m + ((page - 2 * m) - draw) / 2) - m
  == (page - m) - ((m + ((page - 2 * m) - draw) / 2) + draw).
Proof. field. Qed.

(** Linear arithmetic with halves written as divisions by 2. *)
Ltac halves := unfold Qdiv; change (/ 2) with (1 # 2); lra.

(** The derived side of the rectangle does not exceed the available one. *)
Lemma derived_height_fits (aw ah a : Q) :
  0 < ah -> 0 < a -> aw / ah < a -> aw / a <= ah.
Proof.
  intros Hah Ha H.
  assert (P : (aw / ah) * ah == aw) by (field; lra).
  assert (D : (aw / a) * a == aw) by (field; lra).
  set (p := aw / ah) in *. set (h := aw / a) in *. nra.
Qed.

Lemma derived_width_fits (aw ah a : Q) :
  0 < ah -> a <= aw / ah -> ah * a <= aw.
Proof.
  intros Hah H.
  assert (P : (aw / ah) * ah == aw) by (field; lra).
  set (p := aw / ah) in *. nra.
Qed.

(** C8. For positive image and page dimensions and a non-negative margin
    that leaves a positive available area, the rectangle has the aspect
    ratio of the image, lies within [margin, pageWidth - margin] and
    [margin, pageHeight - margin], and has equal gaps to the available area
    on both sides of each axis. *)
Theorem fit_keeps_aspect_inside_centred
    (margin0 imageWidth imageHeight pageWidth pageHeight : Q) :
  0 < imageWidth -> 0 < imageHeight ->
  0 < pageWidth -> 0 < pageHeight -> 0 <= margin0 ->
  0 < pageWidth - 2 * margin0 -> 0 < pageHeight - 2 * margin0 ->
  let r := computeFit margin0 imageWidth imageHeight pageWidth pageHeight in
  width r / height r == imageWidth / imageHeight /\
  (margin0 <= x r /\ x r + width r <= pageWidth - margin0) /\
  (margin0 <= y r /\ y r + height r <= pageHeight - margin0) /\
  x r - margin0 == (pageWidth - margin0) - (x r + width r) /\
  y r - margin0 == (pageHeight - margin0) - (y r + height r).
Proof.
  intros Hiw Hih Hpw Hph Hm Haw Hah r. subst r.
  assert (Ha : 0 < imageWidth / imageHeight)
    by (apply Qlt_shift_div_l; lra).
  destruct (Qlt_le_dec ((pageWidth - 2 * margin0) / (pageHeight - 2 * margin0))
              (imageWidth / imageHeight)) as [H | H].
  - rewrite (computeFit_wider _ _ _ _ _ H). cbn [x y width height].
    pose proof (derived_height_fits _ _ _ Hah Ha H) as F.
    assert (P : 0 < (pageWidth - 2 * margin0) / (imageWidth / imageHeight))
      by (apply Qlt_shift_div_l; lra).
    split; [field; repeat split; lra |].
    generalize dependent ((pageWidth - 2 * margin0) / (imageWidth / imageHeight)).
    intros h Fh Ph. clear H Ha.
    split; [split; halves |]. split; [split; halves |].
    split; apply centred_gaps.
  - rewrite (computeFit_taller _ _ _ _ _ H). cbn [x y width height].
    pose proof (derived_width_fits _ _ _ Hah H) as F.
    assert (P : 0 < (pageHeight - 2 * margin0) * (imageWidth / imageHeight))
      by nra.
    split; [field; repeat split; lra |].
    generalize dependent ((pageHeight - 2 * margin0) * (imageWidth / imageHeight)).
    intros w Fw Pw. clear H Ha.
    split; [split; halves |]. split; [split; halves |].
    split; apply centred_gaps.
Qed.

Lemma fit_keeps_aspect_inside_centred_witness :
  let r := computeFit 20 200 100 600 800 in
  width r / height r == 200 / 100 /\
  (20 <= x r /\ x r + width r <= 600 - 20) /\
  (20 <= y r /\ y r + height r <= 800 - 20) /\
  x r - 20 == (600 - 20) - (x r + width r) /\
  y r - 20 == (800 - 20) - (y r + height r).
Proof.
  apply (fit_keeps_aspect_inside_centred 20 200 100 600 800);
    vm_compute; congruence.
Defined.

(** C9 (amended). Over exact arithmetic, when the aspect ratio of the image
    equals that of the available area, the rectangle is the available area:
    its width and height are the available ones and it sits at
    (margin, margin). *)
Theorem equal_aspect_fills_available_area
    (margin0 imageWidth imageHeight pageWidth pageHeight : Q) :
  ~ imageHeight == 0 -> ~ pageHeight - 2 * margin0 == 0 ->
  imageWidth / imageHeight
    == (pageWidth - 2 * margin0) / (pageHeight - 2 * margin0) ->
  let r := computeFit margin0 imageWidth imageHeight pageWidth pageHeight in
  width r == pageWidth - 2 * margin0 /\
  height r == pageHeight - 2 * margin0 /\
  x r == margin0 /\
  y r == margin0.
Proof.
  intros Hih Hah E r. subst r.
  rewrite computeFit_taller by (rewrite E; apply Qle_refl).
  cbn [x y width height].
  assert (W : (pageHeight - 2 * margin0) * (imageWidth / imageHeight)
              == pageWidth - 2 * margin0)
    by (rewrite E; field; exact Hah).
  split; [exact W |]. split; [reflexivity |].
  split; [rewrite W |]; field.
Qed.

Lemma equal_aspect_fills_available_area_witness :
  let r := computeFit 20 280 380 600 800 in
  width r == 600 - 2 * 20 /\ height r == 800 - 2 * 20 /\
  x r == 20 /\ y r == 20.
Proof.
  apply (equal_aspect_fills_available_area 20 280 380 600 800);
    vm_compute; congruence.
Defined.

End PageFitTheorems.

(* ================================================================== *)
(** ** The layout over doubles *)

Module PageFitDoubleTheorems.
Import PrimFloat PageFitDouble.

Local Open Scope float_scope.

(** C7. The layout is a contain fit: with availableWidth = pageWidth -
    2*margin and availableHeight = pageHeight - 2*margin, when
    imageWidth/imageHeight > availableWidth/availableHeight the draw width
    is the available width and the draw height is that width divided by the
    image's aspect ratio, otherwise the draw height is the available height
    and the draw width is that height times the aspect ratio; the rectangle
    starts at margin + (available - drawn) / 2 on both axes.  An image of
    200 x 100 on a page of 600 x 800 with the margin 20 is drawn 560 x 280
    at (20, 260).  All of it on the doubles of the source. *)
Theorem contain_fit
    (margin0 imageWidth imageHeight pageWidth pageHeight : float) :
  let availableWidth := pageWidth - 2 * margin0 in
  let availableHeight := pageHeight - 2 * margin0 in
  let r := computeFit margin0 imageWidth imageHeight pageWidth pageHeight in
  (if ltb (availableWidth / availableHeight) (imageWidth / imageHeight)
   then width r = availableWidth /\
        height r = availableWidth / (imageWidth / imageHeight)
   else height r = availableHeight /\
        width r = availableHeight * (imageWidth / imageHeight)) /\
  x r = margin0 + (availableWidth - width r) / 2 /\
  y r = margin0 + (availableHeight - height r) / 2 /\
  computeFit margin 200 100 600 800
  = {| x := 20; y := 260; width := 560; height := 280 |}.
Proof.
  intros availableWidth availableHeight r.
  subst availableWidth availableHeight r. unfold computeFit.
  destruct (ltb ((pageWidth - 2 * margin0) / (pageHeight - 2 * margin0))
              (imageWidth / imageHeight));
    cbn [x y width height]; repeat split; vm_compute; reflexivity.
Qed.

(** C9, the claim as stated, fails on the doubles of the source: an image
    of 58 x 7 on a page of 98 x 47 has the aspect ratio of the available
    area, 58/7, and is drawn 58.000000000000007 wide from
    x = 19.999999999999996. *)
Lemma equal_aspect_rounds_in_doubles : ~ fillsAvailableArea 20 58 7 98 47.
Proof.
  unfold fillsAvailableArea. intros H.
  assert (E : 58 / 7 = (98 - 2 * 20) / (47 - 2 * 20))
    by (vm_compute; reflexivity).
  destruct (H E) as (W & _).
  apply (f_equal (fun f => PrimFloat.eqb f 58)) in W.
  vm_compute in W. discriminate W.
Qed.

End PageFitDoubleTheorems.

(* ================================================================== *)
(** ** The page-number text: the property of the specification *)

Module PageNumbersTheorems.
Import Js Reference PageNumbers JsFacts.

Local Open Scope char_scope.
Local Open Scope Z_scope.

Section Placeholders.

(** The texts put in for %p and for %t.  The first is not empty, has no
    percent sign and does not start with the letter t, as the digits of a
    page number. *)
Variables P T : jsstring.
Hypothesis P_head : exists p0 P', P = p0 :: P' /\ Ascii.eqb "t" p0 = false.
Hypothesis P_no_percent : includes "%" P = false.

Lemma startsWith_pair (a b c d : ascii) (r : jsstring) :
  startsWith [a; b] (c :: d :: r) = Ascii.eqb a c && Ascii.eqb b d.
Proof. cbn [startsWith]. rewrite andb_true_r. reflexivity. Qed.

Lemma replace_pair_hit (a b : ascii) (rep r : jsstring) :
  replace [a; b] rep (a :: b :: r) = rep ++ r.
Proof.
  cbn [replace]. rewrite startsWith_pair, !Ascii.eqb_refl. reflexivity.
Qed.

Lemma replace_pair_miss (a b c : ascii) (rep r : jsstring) :
  startsWith [a; b] (c :: r) = false ->
  replace [a; b] rep (c :: r) = c :: replace [a; b] rep r.
Proof. intros H. cbn [replace]. rewrite H. reflexivity. Qed.

Lemma replace_pair_nil (a b : ascii) (rep : jsstring) :
  replace [a; b] rep [] = [].
Proof. reflexivity. Qed.

(** The text put in for %p hides no %t and makes none with what follows. *)
Lemma replace_after_P (b : ascii) (rep rest : jsstring) :
  replace ["%"; b] rep (P ++ rest) = P ++ replace ["%"; b] rep rest.
Proof.
  revert P_no_percent. clear P_head. unfold includes.
  induction P as [| p0 P' IH]; intros H; [reflexivity |].
  cbn [existsb] in H. apply orb_false_iff in H as [H1 H2].
  cbn [app]. rewrite replace_pair_miss.
  - rewrite (IH H2). reflexivity.
  - cbn [startsWith]. rewrite H1. reflexivity.
Qed.

Lemma substituteFirsts_done (s : jsstring) :
  substituteFirsts P T true true s = s.
Proof.
  induction s as [| c rest IH]; [reflexivity |].
  cbn [substituteFirsts]. destruct rest as [| d rest']; [reflexivity |].
  cbn [negb]. rewrite !andb_false_r, IH. reflexivity.
Qed.

Lemma substituteFirsts_t_left (s : jsstring) :
  substituteFirsts P T true false s = replace (str "%t") T s.
Proof.
  change (str "%t") with ["%"; "t"].
  induction s as [| c rest IH]; [reflexivity |].
  cbn [substituteFirsts]. destruct rest as [| d rest'].
  - cbn [replace startsWith]. rewrite andb_false_r. reflexivity.
  - cbn [negb]. rewrite andb_false_r, andb_true_r.
    destruct (Ascii.eqb "%" c && Ascii.eqb "t" d) eqn:E.
    + apply andb_true_iff in E as [E1 E2].
      apply Ascii.eqb_eq in E1, E2. subst c d.
      rewrite replace_pair_hit, substituteFirsts_done. reflexivity.
    + rewrite replace_pair_miss by (rewrite startsWith_pair; exact E).
      rewrite IH. reflexivity.
Qed.

Lemma substituteFirsts_p_left (s : jsstring) :
  substituteFirsts P T false true s = replace (str "%p") P s.
Proof.
  change (str "%p") with ["%"; "p"].
  induction s as [| c rest IH]; [reflexivity |].
  cbn [substituteFirsts]. destruct rest as [| d rest'].
  - cbn [replace startsWith]. rewrite andb_false_r. reflexivity.
  - cbn [negb]. rewrite andb_false_r, andb_true_r.
    destruct (Ascii.eqb "%" c && Ascii.eqb "p" d) eqn:E.
    + apply andb_true_iff in E as [E1 E2].
      apply Ascii.eqb_eq in E1, E2. subst c d.
      rewrite replace_pair_hit, substituteFirsts_done. reflexivity.
    + rewrite replace_pair_miss by (rewrite startsWith_pair; exact E).
      rewrite IH. reflexivity.
Qed.

(** The head of the format after its first %p is replaced. *)
Lemma replace_p_head_not_t (s : jsstring) :
  Ascii.eqb "p" (hd " " s) = false -> Ascii.eqb "t" (hd " " s) = false ->
  Ascii.eqb "t" (hd " " (replace ["%"; "p"] P s)) = false.
Proof.
  intros Hp Ht. destruct s as [| d r]; [reflexivity |].
  cbn [hd] in Hp, Ht. cbn [replace].
  destruct (startsWith ["%"; "p"] (d :: r)) eqn:E.
  - destruct P_head as (p0 & P' & -> & H0). exact H0.
  - exact Ht.
Qed.

(** Replacing the first %p and then the first %t comes to replacing the
    first %p and the first %t of the format itself. *)
Lemma replace_twice_is_substituteFirsts (s : jsstring) :
  replace (str "%t") T (replace (str "%p") P s)
  = substituteFirsts P T false false s.
Proof.
  change (str "%t") with ["%"; "t"]. change (str "%p") with ["%"; "p"].
  induction s as [| c rest IH]; [reflexivity |].
  cbn [substituteFirsts]. destruct rest as [| d rest'].
  - cbn [replace startsWith]. rewrite !andb_false_r.
    cbn [replace startsWith]. rewrite !andb_false_r. reflexivity.
  - cbn [negb]. rewrite !andb_true_r.
    destruct (Ascii.eqb "%" c && Ascii.eqb "p" d) eqn:Ep.
    + apply andb_true_iff in Ep as [E1 E2].
      apply Ascii.eqb_eq in E1, E2. subst c d.
      rewrite replace_pair_hit, replace_after_P, substituteFirsts_t_left.
      reflexivity.
    + rewrite (replace_pair_miss "%" "p" c P (d :: rest'))
        by (rewrite startsWith_pair; exact Ep).
      destruct (Ascii.eqb "%" c && Ascii.eqb "t" d) eqn:Et.
      * apply andb_true_iff in Et as [E1 E2].
        apply Ascii.eqb_eq in E1, E2. subst c d.
        rewrite (replace_pair_miss "%" "p" "t") by reflexivity.
        rewrite replace_pair_hit, substituteFirsts_p_left. reflexivity.
      * rewrite replace_pair_miss; [rewrite IH; reflexivity |].
        destruct (Ascii.eqb "%" c) eqn:Ec;
          [| cbn [startsWith]; rewrite Ec; reflexivity].
        cbn [andb] in Ep, Et.
        pose proof (replace_p_head_not_t (d :: rest') Ep Et) as Hh.
        destruct (replace ["%"; "p"] P (d :: rest')) as [| y Y];
          [cbn [startsWith]; rewrite andb_false_r; reflexivity |].
        rewrite startsWith_pair. cbn [hd] in Hh. rewrite Hh.
        apply andb_false_r.
Qed.

End Placeholders.

Lemma toString_head_not_t (n : Z) :
  0 <= n ->
  exists p0 P', toString n = p0 :: P' /\ Ascii.eqb "t" p0 = false.
Proof.
  intros Hn. destruct (toString_spec n Hn) as (A & B & _).
  destruct (toString n) as [| p0 P']; [congruence |].
  exists p0, P'. split; [reflexivity |].
  cbn [forallb] in B. apply andb_true_iff in B as [B _].
  rewrite Ascii.eqb_sym. apply digit_not_sep; [reflexivity | exact B].
Qed.

(** C10. On every page the text drawn is the format with its first %p
    replaced by the page number (counted from 1) and its first %t by the
    page count; every later %p or %t stays as it is written, as in
    "%p/%t %p/%t", drawn "3/7 %p/%t" on the third of 7 pages. *)
Theorem only_first_placeholders_substituted
    (format : jsstring) (i totalPages : Z) :
  0 <= i < totalPages ->
  pageNumStr format i totalPages
    = substituteFirsts (toString (i + 1)) (toString totalPages)
        false false format /\
  pageNumStr (str "%p/%t %p/%t") 2 7 = str "3/7 %p/%t".
Proof.
  intros Hi. split; [| reflexivity].
  unfold pageNumStr. apply replace_twice_is_substituteFirsts.
  - apply toString_head_not_t. lia.
  - destruct (toString_spec (i + 1)) as (_ & B & _); [lia |].
    apply includes_digits; [reflexivity | exact B].
Qed.

Lemma only_first_placeholders_substituted_witness :
  pageNumStr (str "%%pt, %t of %p, %p of %t") 2 7
    = substituteFirsts (toString (2 + 1)) (toString 7) false false
        (str "%%pt, %t of %p, %p of %t") /\
  pageNumStr (str "%p/%t %p/%t") 2 7 = str "3/7 %p/%t".
Proof.
  apply (only_first_placeholders_substituted
           (str "%%pt, %t of %p, %p of %t") 2 7).
  lia.
Defined.

End PageNumbersTheorems.

(* ================================================================== *)
(** ** More on the range parser *)

Module RangeParserMore.
Import Js Reference RangeParser JsFacts RangeParserFacts ServiceReference.

Local Open Scope char_scope.
Local Open Scope Z_scope.

#[local] Arguments isDigit : simpl never.
#[local] Arguments isWhiteSpace : simpl never.
#[local] Arguments parseInt : simpl never.
#[local] Arguments trim : simpl never.

Lemma split_not_nil (sep : ascii) (s : jsstring) : split sep s <> [].
Proof.
  induction s as [| c s IH]; cbn [split]; [discriminate |].
  destruct (Ascii.eqb c sep); [discriminate |].
  destruct (split sep s); [congruence | discriminate].
Qed.

(** What one round does to the result set, read off both branches. *)
Lemma processPart_covers (maxPage : Z) (acc acc' : NumberSet)
    (part : jsstring) :
  processPart maxPage acc part = Ok acc' ->
  (forall v, In v acc' <-> In v acc \/ covers maxPage part v) /\
  (exists v, covers maxPage part v).
Proof.
  unfold processPart, covers.
  destruct (includes "-" (trim part)).
  - destruct (split "-" (trim part)) as [| a [| b rest]]; try discriminate.
    cbn [nth].
    destruct (parseInt a) as [| start]; try discriminate.
    destruct (parseInt b) as [| end_]; try discriminate.
    destruct ((start <? 1) || (end_ <? start) || (start >? maxPage)) eqn:E;
      try discriminate.
    intros [= <-].
    apply orb_false_iff in E as [E E3]. apply orb_false_iff in E as [E1 E2].
    apply Z.ltb_ge in E1, E2. rewrite Z.gtb_ltb in E3. apply Z.ltb_ge in E3.
    split.
    + intros v. rewrite addRange_In. intuition lia.
    + exists (start - 1). lia.
  - destruct (parseInt (trim part)) as [| pageNum]; try discriminate.
    destruct ((pageNum <? 1) || (pageNum >? maxPage)); try discriminate.
    intros [= <-]. split.
    + intros v. rewrite setAdd_In. tauto.
    + exists (pageNum - 1). reflexivity.
Qed.

Lemma processParts_covers (maxPage : Z) (parts : list jsstring) :
  forall acc acc',
    processParts maxPage acc parts = Ok acc' ->
    forall v, In v acc' <->
              In v acc \/ exists part, In part parts /\ covers maxPage part v.
Proof.
  induction parts as [| part parts IH]; intros acc acc' H v;
    cbn [processParts] in H.
  - injection H as <-. split; [tauto |].
    intros [I | (part & [] & _)]. exact I.
  - destruct (processPart maxPage acc part) as [acc1 | e] eqn:E;
      cbn [bind] in H; [| discriminate].
    rewrite (IH _ _ H v).
    destruct (processPart_covers _ _ _ _ E) as [C _]. rewrite (C v).
    split.
    + intros [[I | I] | (q & Hq & Cq)].
      * left. exact I.
      * right. exists part. split; [left; reflexivity | exact I].
      * right. exists q. split; [right; exact Hq | exact Cq].
    + intros [I | (q & [<- | Hq] & Cq)].
      * left. left. exact I.
      * left. right. exact Cq.
      * right. exists q. split; assumption.
Qed.

(** Whether a round fails, and how, does not depend on the pages collected
    before it. *)
Lemma processPart_error_independent (maxPage : Z) (acc1 acc2 : NumberSet)
    (part : jsstring) (e : ParseError) :
  processPart maxPage acc1 part = Err e ->
  processPart maxPage acc2 part = Err e.
Proof.
  unfold processPart.
  destruct (includes "-" (trim part)).
  - destruct (split "-" (trim part)) as [| a [| b rest]]; auto.
    destruct (parseInt a); auto. destruct (parseInt b); auto.
    destruct ((z <? 1) || (z0 <? z) || (z >? maxPage)); [auto | discriminate].
  - destruct (parseInt (trim part)) as [| pageNum]; auto.
    destruct ((pageNum <? 1) || (pageNum >? maxPage)); [auto | discriminate].
Qed.

Lemma processPart_ok_independent (maxPage : Z) (acc1 acc2 acc1' : NumberSet)
    (part : jsstring) :
  processPart maxPage acc1 part = Ok acc1' ->
  exists acc2', processPart maxPage acc2 part = Ok acc2'.
Proof.
  intros H. destruct (processPart maxPage acc2 part) as [a | e] eqn:E.
  - exists a. reflexivity.
  - rewrite (processPart_error_independent _ _ acc1 _ _ E) in H. discriminate.
Qed.

(** The loop succeeds exactly when each part is accepted on its own. *)
Lemma processParts_ok_iff (maxPage : Z) (parts : list jsstring) :
  forall acc,
    (exists acc', processParts maxPage acc parts = Ok acc') <->
    Forall (fun part => exists a, processPart maxPage [] part = Ok a) parts.
Proof.
  induction parts as [| part parts IH]; intros acc; cbn [processParts].
  - split; [constructor | intros _; exists acc; reflexivity].
  - split.
    + intros [acc' H].
      destruct (processPart maxPage acc part) as [acc1 | e] eqn:E;
        cbn [bind] in H; [| discriminate].
      constructor.
      * exact (processPart_ok_independent _ _ [] _ _ E).
      * apply (IH acc1). exists acc'. exact H.
    + intros F. inversion F as [| ? ? [a Ha] F']; subst.
      destruct (processPart_ok_independent _ _ acc _ _ Ha) as [acc1 E].
      rewrite E. cbn [bind]. apply (IH acc1). exact F'.
Qed.

Lemma sorted_lt_unique (l1 : list Z) :
  forall l2,
    StronglySorted Z.lt l1 -> StronglySorted Z.lt l2 ->
    (forall v, In v l1 <-> In v l2) -> l1 = l2.
Proof.
  induction l1 as [| a l1 IH]; intros l2 S1 S2 H.
  - destruct l2 as [| b l2]; [reflexivity |].
    exfalso. apply (proj2 (H b)). left. reflexivity.
  - destruct l2 as [| b l2].
    + exfalso. apply (proj1 (H a)). left. reflexivity.
    + inversion S1 as [| ? ? S1' F1]; subst.
      inversion S2 as [| ? ? S2' F2]; subst.
      rewrite Forall_forall in F1, F2.
      assert (a = b).
      { destruct (proj1 (H a) (or_introl eq_refl)) as [-> | Ia];
          [reflexivity |].
        destruct (proj2 (H b) (or_introl eq_refl)) as [-> | Ib];
          [reflexivity |].
        specialize (F1 _ Ib). specialize (F2 _ Ia). lia. }
      subst b. f_equal. apply IH; auto.
      intros v. split; intros I.
      * destruct (proj1 (H v) (or_intror I)) as [<- | I']; [| exact I'].
        specialize (F1 _ I). lia.
      * destruct (proj2 (H v) (or_intror I)) as [<- | I']; [| exact I'].
        specialize (F2 _ I). lia.
Qed.

Lemma parse_ok_nil_blank (expression : jsstring) (maxPage : Z) :
  parsePageRanges expression maxPage = Ok [] -> trim expression = [].
Proof.
  unfold parsePageRanges.
  destruct (trim expression) as [| c t] eqn:T; [reflexivity |].
  intros H. exfalso.
  destruct (processParts maxPage [] (split "," expression))
    as [acc | e] eqn:E; cbn [bind] in H; [| discriminate].
  injection H as H.
  destruct (split "," expression) as [| part parts] eqn:S;
    [exact (split_not_nil _ _ S) |].
  cbn [processParts] in E.
  destruct (processPart maxPage [] part) as [acc1 | e] eqn:E1;
    cbn [bind] in E; [| discriminate].
  destruct (processPart_covers _ _ _ _ E1) as [C [v Cv]].
  assert (I : In v acc).
  { apply (processParts_covers _ _ _ _ E). left. apply C. right. exact Cv. }
  apply sortNumeric_In in I. rewrite H in I. exact I.
Qed.

(** What a successful parse returns, whatever the expression. *)
Lemma parse_ok_indices (expression : jsstring) (maxPage : Z)
    (pages : list Z) :
  parsePageRanges expression maxPage = Ok pages ->
  StronglySorted Z.lt pages /\ NoDup pages /\
  (forall i, In i pages -> 0 <= i < maxPage).
Proof.
  intros H. unfold parsePageRanges in H.
  destruct (trim expression) as [| c t].
  - injection H as <-.
    split; [constructor | split; [constructor | intros i []]].
  - destruct (processParts maxPage [] (split "," expression))
      as [acc | e] eqn:E; cbn [bind] in H; [| discriminate].
    injection H as <-.
    destruct (processParts_collected _ _ _ _
                (conj (NoDup_nil Z) (fun i (F : In i []) => match F with end)) E)
      as [Hn Hb].
    pose proof (sortNumeric_sorted acc Hn) as Hs.
    split; [exact Hs | split; [apply sorted_lt_NoDup, Hs |]].
    intros i Hi. apply Hb, sortNumeric_In, Hi.
Qed.

(** X1. A parse returns no page exactly when the expression is blank: every
    other expression yields at least one page or fails. *)
Theorem parse_empty_iff_blank (expression : jsstring) (maxPage : Z) :
  parsePageRanges expression maxPage = Ok [] <-> trim expression = [].
Proof.
  split; [apply parse_ok_nil_blank |].
  unfold parsePageRanges. intros ->. reflexivity.
Qed.

Lemma parse_empty_iff_blank_witness :
  parsePageRanges (str "  ") 5 = Ok [].
Proof.
  apply (proj2 (parse_empty_iff_blank (str "  ") 5)). reflexivity.
Defined.

(** X2. What a successful parse returns: the index v is in the result
    exactly when one of the comma-separated parts asks for it. *)
Theorem parse_result_members
    (expression : jsstring) (maxPage : Z) (pages : list Z) :
  trim expression <> [] ->
  parsePageRanges expression maxPage = Ok pages ->
  forall v, In v pages <->
            exists part, In part (split "," expression)
                         /\ covers maxPage part v.
Proof.
  intros Hne H v. unfold parsePageRanges in H.
  destruct (trim expression) as [| c t]; [congruence |].
  destruct (processParts maxPage [] (split "," expression))
    as [acc | e] eqn:E; cbn [bind] in H; [| discriminate].
  injection H as <-.
  rewrite sortNumeric_In, (processParts_covers _ _ _ _ E v).
  split; [intros [[] | I]; exact I | intros I; right; exact I].
Qed.

Lemma parse_result_members_witness :
  In 4 [0; 1; 2; 4] <->
  exists part, In part (split "," (str "5, 1-3")) /\ covers 10 part 4.
Proof.
  apply (parse_result_members (str "5, 1-3") 10); [discriminate | reflexivity].
Defined.

(** X3. The order of the comma-separated parts does not matter: two
    expressions whose parts are the same up to their order are accepted
    together and give the same pages. *)
Theorem parse_order_irrelevant
    (expression1 expression2 : jsstring) (maxPage : Z) (pages : list Z) :
  trim expression1 <> [] -> trim expression2 <> [] ->
  Permutation (split "," expression1) (split "," expression2) ->
  parsePageRanges expression1 maxPage = Ok pages ->
  parsePageRanges expression2 maxPage = Ok pages.
Proof.
  intros H1 H2 P H.
    unfold parsePageRanges in H |- *.
  destruct (trim expression1) as [| c1 t1]; [congruence |].
  destruct (trim expression2) as [| c2 t2]; [congruence |].
  destruct (processParts maxPage [] (split "," expression1))
    as [acc1 | e1] eqn:E1; cbn [bind] in H; [| discriminate].
  injection H as <-.
  assert (O1 : exists a, processParts maxPage [] (split "," expression1) = Ok a)
    by (exists acc1; exact E1).
  apply processParts_ok_iff in O1.
  assert (O2 : Forall (fun part => exists a, processPart maxPage [] part = Ok a)
                 (split "," expression2)).
  { rewrite Forall_forall in *. intros part I. apply O1.
    apply (Permutation_in _ (Permutation_sym P) I). }
  apply (processParts_ok_iff maxPage _ []) in O2. destruct O2 as [acc2 E2].
  rewrite E2. cbn [bind]. f_equal.
  destruct (processParts_collected _ _ _ _
              (conj (NoDup_nil Z) (fun i (F : In i []) => match F with end)) E1)
    as [N1 _].
  destruct (processParts_collected _ _ _ _
              (conj (NoDup_nil Z) (fun i (F : In i []) => match F with end)) E2)
    as [N2 _].
  apply sorted_lt_unique; try (apply sortNumeric_sorted; assumption).
  intros v. rewrite !sortNumeric_In.
  rewrite (processParts_covers _ _ _ _ E1 v), (processParts_covers _ _ _ _ E2 v).
  split; (intros [[] | (part & I & C)]; right; exists part; split; [| exact C]).
  - exact (Permutation_in _ (Permutation_sym P) I).
  - exact (Permutation_in _ P I).
Qed.

Lemma parse_order_irrelevant_witness :
  parsePageRanges (str "1-3,5") 10 = Ok [0; 1; 2; 4].
Proof.
  apply (parse_order_irrelevant (str "5,1-3") (str "1-3,5") 10).
  - discriminate.
  - discriminate.
  - apply perm_swap.
  - reflexivity.
Defined.

(** X4. Decimal page numbers and ranges are read back: a page p of the
    document gives the index p - 1, and a range from s to e inside the
    document gives the indices s - 1 .. e - 1. *)
Theorem parse_reads_decimal (maxPage first last : Z) :
  1 <= first -> first <= last -> last <= maxPage ->
  parsePageRanges (toString first) maxPage = Ok [first - 1] /\
  parsePageRanges (toString first ++ str "-" ++ toString last) maxPage
  = Ok (consecutive (first - 1) (Z.to_nat (last - first + 1))).
Proof.
  intros H1 H2 H3.
  destruct (toString_spec first) as (S1 & S2 & S3); [lia |].
  destruct (toString_spec last) as (E1 & E2 & E3); [lia |].
  split.
  - rewrite parse_single_part.
    + rewrite (processPart_page_digits maxPage [] _ S1 S2), S3.
      replace ((first <? 1) || (first >? maxPage)) with false; [reflexivity |].
      symmetry. rewrite Z.gtb_ltb. apply orb_false_iff.
      split; apply Z.ltb_ge; lia.
    + rewrite (trim_digits _ S1 S2). exact S1.
    + apply includes_digits; [reflexivity | exact S2].
  - change (toString first ++ str "-" ++ toString last)
      with (toString first ++ "-" :: toString last).
    rewrite parse_single_part.
    + rewrite (processPart_range_digits maxPage [] _ _ S1 E1 S2 E2), S3, E3.
      replace ((first <? 1) || (last <? first) || (first >? maxPage))
        with false.
      * cbn [bind]. rewrite addRange_fresh by (intros x []).
        cbn [app]. rewrite Z.min_l by lia.
        rewrite sortNumeric_id by apply consecutive_sorted. reflexivity.
      * symmetry. rewrite Z.gtb_ltb. repeat (apply orb_false_iff; split);
          apply Z.ltb_ge; lia.
    + change (toString first ++ "-" :: toString last)
        with (toString first ++ ["-"] ++ toString last).
      rewrite (trim_between_digits _ ["-"] _ S1 E1 S2 E2).
      destruct (toString first); [congruence | discriminate].
    + rewrite includes_app.
      rewrite (includes_digits "," _) by (reflexivity || exact S2).
      cbn [orb]. unfold includes. cbn [existsb].
      change (existsb (Ascii.eqb ",") (toString last))
        with (includes "," (toString last)).
      rewrite (includes_digits "," _) by (reflexivity || exact E2).
      reflexivity.
Qed.

Lemma parse_reads_decimal_witness :
  parsePageRanges (toString 4) 12 = Ok [4 - 1] /\
  parsePageRanges (toString 4 ++ str "-" ++ toString 9) 12
  = Ok (consecutive (4 - 1) (Z.to_nat (9 - 4 + 1))).
Proof.
  apply (parse_reads_decimal 12 4 9); lia.
Defined.

(** X5. A part that starts with a dash once trimmed, such as a negative
    page number, is rejected as a range, with InvalidRange. *)
Theorem leading_dash_is_invalid_range
    (maxPage : Z) (resultPages : NumberSet) (part rest : jsstring) :
  trim part = "-" :: rest ->
  processPart maxPage resultPages part = Err InvalidRange.
Proof.
  intros T. unfold processPart. rewrite T.
  cbn [includes existsb]. rewrite Ascii.eqb_refl. cbn [orb split].
  rewrite Ascii.eqb_refl.
  destruct (split "-" rest) as [| b tl] eqn:S;
    [exact (match split_not_nil _ _ S with end) |].
  change (parseInt []) with NaN. reflexivity.
Qed.

Lemma leading_dash_is_invalid_range_witness :
  processPart 10 [] (str " -5 ") = Err InvalidRange.
Proof.
  apply (leading_dash_is_invalid_range 10 [] (str " -5 ") (str "5")).
  reflexivity.
Defined.

(** X6. On a document without pages every expression that is not blank is
    rejected. *)
Theorem parse_fails_on_empty_document (expression : jsstring) (maxPage : Z) :
  maxPage <= 0 -> trim expression <> [] ->
  exists e, parsePageRanges expression maxPage = Err e.
Proof.
  intros Hm Hne.
  destruct (parsePageRanges expression maxPage) as [pages | e] eqn:P;
    [| exists e; reflexivity].
  exfalso.
  destruct pages as [| v pages].
  - exact (Hne (parse_ok_nil_blank _ _ P)).
  - destruct (parse_ok_indices _ _ _ P) as (_ & _ & B).
    specialize (B v (or_introl eq_refl)). lia.
Qed.

Lemma parse_fails_on_empty_document_witness :
  exists e, parsePageRanges (str "1") 0 = Err e.
Proof.
  apply (parse_fails_on_empty_document (str "1") 0); [lia | discriminate].
Defined.

(** *** [trim] applied twice *)

Lemma trimStart_headClean (s : jsstring) : headClean (trimStart s) = true.
Proof.
  induction s as [| c s IH]; [reflexivity |].
  cbn [trimStart]. destruct (isWhiteSpace c) eqn:E; [exact IH |].
  cbn [headClean]. rewrite E. reflexivity.
Qed.

Lemma trimStart_of_clean (s : jsstring) :
  headClean s = true -> trimStart s = s.
Proof.
  destruct s as [| c s]; [reflexivity |].
  cbn [headClean trimStart]. intros H. apply negb_true_iff in H.
  rewrite H. reflexivity.
Qed.

Lemma trimStart_snoc (l : jsstring) (c : ascii) :
  isWhiteSpace c = false -> trimStart (l ++ [c]) = trimStart l ++ [c].
Proof.
  intros H. induction l as [| d l IH]; cbn [app trimStart].
  - rewrite H. reflexivity.
  - destruct (isWhiteSpace d); [exact IH | reflexivity].
Qed.

Lemma trimEnd_cons (c : ascii) (r : jsstring) :
  isWhiteSpace c = false -> trimEnd (c :: r) = c :: trimEnd r.
Proof.
  intros H. unfold trimEnd. cbn [rev].
  rewrite (trimStart_snoc _ _ H), rev_app_distr. reflexivity.
Qed.

Lemma trim_headClean (s : jsstring) : headClean (trim s) = true.
Proof.
  unfold trim. pose proof (trimStart_headClean s) as H.
  destruct (trimStart s) as [| c r]; [reflexivity |].
  cbn [headClean] in H. apply negb_true_iff in H.
  rewrite (trimEnd_cons _ _ H). cbn [headClean]. rewrite H. reflexivity.
Qed.

Lemma trimEnd_idempotent (s : jsstring) : trimEnd (trimEnd s) = trimEnd s.
Proof.
  unfold trimEnd. rewrite rev_involutive.
  rewrite (trimStart_of_clean _ (trimStart_headClean (rev s))). reflexivity.
Qed.

Lemma trim_idempotent (s : jsstring) : trim (trim s) = trim s.
Proof.
  unfold trim at 1. rewrite (trimStart_of_clean _ (trim_headClean s)).
  unfold trim. apply trimEnd_idempotent.
Qed.

(** X7. White space around a part does not count: a round gives the same
    result, pages or error, on the part and on the part trimmed. *)
Theorem processPart_ignores_outer_space
    (maxPage : Z) (resultPages : NumberSet) (part : jsstring) :
  processPart maxPage resultPages (trim part)
  = processPart maxPage resultPages part.
Proof.
  unfold processPart. rewrite trim_idempotent. reflexivity.
Qed.

End RangeParserMore.

(* ================================================================== *)
(** ** The PDF service: extraction, splitting, merging *)

Module PdfServiceTheorems.
Import Js Reference RangeParser JsFacts RangeParserFacts ServiceReference.
Import RangeParserMore PdfService.

Local Open Scope char_scope.
Local Open Scope Z_scope.

#[local] Arguments trim : simpl never.
#[local] Arguments toString : simpl never.

Lemma pageAt_in_range (doc : PdfDocument) (i : Z) :
  0 <= i < getPageCount doc -> exists page, pageAt doc i = Some page.
Proof.
  unfold getPageCount, pageAt. intros H.
  destruct (i <? 0) eqn:E; [apply Z.ltb_lt in E; lia |].
  destruct (nth_error doc (Z.to_nat i)) as [page |] eqn:N;
    [exists page; reflexivity |].
  apply nth_error_None in N. lia.
Qed.

Lemma pageAt_some_in_range (doc : PdfDocument) (i : Z) (page : PdfPage) :
  pageAt doc i = Some page -> 0 <= i < getPageCount doc.
Proof.
  unfold getPageCount, pageAt.
  destruct (i <? 0) eqn:E; [discriminate |].
  apply Z.ltb_ge in E. intros N.
  assert (Z.to_nat i < List.length doc)%nat
    by (apply nth_error_Some; congruence).
  lia.
Qed.

(** Copying pages at indices inside the document does not fail. *)
Lemma copyPages_in_range (doc : PdfDocument) (indices : list Z) :
  (forall i, In i indices -> 0 <= i < getPageCount doc) ->
  exists pages,
    copyPages doc indices = Some pages /\
    Forall2 (fun i page => pageAt doc i = Some page) indices pages.
Proof.
  induction indices as [| i rest IH]; intros H; cbn [copyPages].
  - exists []. split; [reflexivity | constructor].
  - destruct (pageAt_in_range doc i (H i (or_introl eq_refl))) as [page P].
    destruct IH as (pages & C & F); [intros j I; apply H; right; exact I |].
    rewrite P, C. exists (page :: pages).
    split; [reflexivity | constructor; assumption].
Qed.

Lemma copyPages_Forall2 (doc : PdfDocument) (indices : list Z) :
  forall pages,
    copyPages doc indices = Some pages ->
    Forall2 (fun i page => pageAt doc i = Some page) indices pages.
Proof.
  induction indices as [| i rest IH]; intros pages; cbn [copyPages].
  - intros [= <-]. constructor.
  - destruct (pageAt doc i) as [page |] eqn:P; [| discriminate].
    destruct (copyPages doc rest) as [ps |]; [| discriminate].
    intros [= <-]. constructor; [exact P | apply IH; reflexivity].
Qed.

Lemma nth_error_middle (pre : PdfDocument) (page : PdfPage)
    (rest : PdfDocument) :
  pageAt (pre ++ page :: rest) (Z.of_nat (List.length pre)) = Some page.
Proof.
  unfold pageAt.
  destruct (Z.of_nat (List.length pre) <? 0) eqn:E;
    [apply Z.ltb_lt in E; lia |].
  rewrite Nat2Z.id, nth_error_app2 by lia.
  rewrite Nat.sub_diag. reflexivity.
Qed.

Lemma copyPages_suffix (rest : PdfDocument) :
  forall pre,
    copyPages (pre ++ rest)
      (map Z.of_nat (seq (List.length pre) (List.length rest)))
    = Some rest.
Proof.
  induction rest as [| page rest IH]; intros pre; [reflexivity |].
  cbn [List.length seq map copyPages].
  rewrite nth_error_middle.
  replace (pre ++ page :: rest) with ((pre ++ [page]) ++ rest)
    by (rewrite <- app_assoc; reflexivity).
  specialize (IH (pre ++ [page])).
  rewrite length_app in IH. cbn [List.length] in IH.
  rewrite Nat.add_1_r in IH. rewrite IH. reflexivity.
Qed.

(** Copying all the indices of a document gives its pages. *)
Lemma copyPages_all (doc : PdfDocument) :
  copyPages doc (getPageIndices doc) = Some doc.
Proof. exact (copyPages_suffix doc []). Qed.

Lemma mergeInto_concat (files : list PdfDocument) :
  forall merged, mergeInto merged files = Done (merged ++ List.concat files).
Proof.
  induction files as [| doc files IH]; intros merged; cbn [mergeInto List.concat].
  - rewrite app_nil_r. reflexivity.
  - rewrite copyPages_all, IH, app_assoc. reflexivity.
Qed.

(** X8. Merging never fails and puts the pages of the files one after the
    other, in the order of the files: as many pages as the files have
    together. *)
Theorem merge_concatenates (files : list PdfDocument) :
  mergePdfs files = Done (List.concat files) /\
  List.length (List.concat files)
  = fold_right (fun doc n => (List.length doc + n)%nat) 0%nat files.
Proof.
  split; [exact (mergeInto_concat files []) |].
  induction files as [| doc files IH]; [reflexivity |].
  cbn [List.concat fold_right]. rewrite length_app, IH. reflexivity.
Qed.

Lemma distinct_indices_count (n : nat) (indices : list Z) :
  NoDup indices -> (forall i, In i indices -> 0 <= i < Z.of_nat n) ->
  (List.length indices <= n)%nat.
Proof.
  intros N B.
  assert (L : (List.length (map Z.to_nat indices)
               <= List.length (seq 0 n))%nat);
    [| rewrite length_map, length_seq in L; exact L].
  apply NoDup_incl_length.
  - clear - N B. induction N as [| i l Hi N IH]; cbn [map]; constructor.
    + intros I. apply in_map_iff in I as (j & E & Ij).
      assert (i = j); [| subst; exact (Hi Ij)].
      pose proof (B i (or_introl eq_refl)). pose proof (B j (or_intror Ij)).
      lia.
    + apply IH. intros j Ij. apply B. right. exact Ij.
  - intros k I. apply in_map_iff in I as (j & <- & Ij).
    apply in_seq. specialize (B j Ij). lia.
Qed.

(** X9. How an extraction ends: never by a page index outside the document;
    with "No valid pages selected" exactly when the expression is blank;
    and with the error of the parser when the parser fails. *)
Theorem extract_outcomes (pdfDoc : PdfDocument) (pageRangesStr : jsstring) :
  extractPagesFromPdf pdfDoc pageRangesStr <> Failed PageIndexOutOfRange /\
  (extractPagesFromPdf pdfDoc pageRangesStr = Failed NoPagesForExtraction
   <-> trim pageRangesStr = []) /\
  (forall e,
      extractPagesFromPdf pdfDoc pageRangesStr = Failed (ParseFailure e)
      <-> parsePageRanges pageRangesStr (getPageCount pdfDoc) = Err e).
Proof.
  unfold extractPagesFromPdf.
  destruct (parsePageRanges pageRangesStr (getPageCount pdfDoc))
    as [indices | e] eqn:P.
  - destruct indices as [| i rest].
    + pose proof (parse_ok_nil_blank _ _ P) as B.
      split; [discriminate |]. split; [tauto |].
      intros e. split; discriminate.
    + destruct (parse_ok_indices _ _ _ P) as (_ & _ & B).
      destruct (copyPages_in_range pdfDoc (i :: rest) B) as (pages & C & _).
      rewrite C.
      split; [discriminate |]. split.
      * split; [discriminate |]. intros T.
        unfold parsePageRanges in P. rewrite T in P. discriminate.
      * intros e. split; discriminate.
  - split; [discriminate |]. split.
    + split; [discriminate |]. intros T.
      unfold parsePageRanges in P. rewrite T in P. discriminate.
    + intros e'. split; intros [= ->]; reflexivity.
Qed.

(** X10. The pages an extraction returns are pages of the document taken at
    strictly ascending indices, so in the order of the document and each at
    most once, whatever the order and the repetitions in the expression;
    there is at least one and at most as many as the document has. *)
Theorem extract_in_document_order
    (pdfDoc : PdfDocument) (pageRangesStr : jsstring) (pages : PdfDocument) :
  extractPagesFromPdf pdfDoc pageRangesStr = Done pages ->
  exists indices,
    parsePageRanges pageRangesStr (getPageCount pdfDoc) = Ok indices /\
    StronglySorted Z.lt indices /\
    Forall2 (fun i page => pageAt pdfDoc i = Some page) indices pages /\
    pages <> [] /\
    (List.length pages <= List.length pdfDoc)%nat.
Proof.
  unfold extractPagesFromPdf.
  destruct (parsePageRanges pageRangesStr (getPageCount pdfDoc))
    as [indices | e] eqn:P; [| discriminate].
  destruct indices as [| i rest]; [discriminate |].
  destruct (copyPages pdfDoc (i :: rest)) as [copied |] eqn:C;
    [| discriminate].
  intros [= <-]. exists (i :: rest).
  destruct (parse_ok_indices _ _ _ P) as (S & N & B).
  pose proof (copyPages_Forall2 _ _ _ C) as F.
  split; [reflexivity |]. split; [exact S |]. split; [exact F |].
  split.
  - inversion F. discriminate.
  - rewrite <- (Forall2_length F).
    apply distinct_indices_count; assumption.
Qed.

Lemma extract_in_document_order_witness :
  exists indices,
    parsePageRanges (str "3, 1-2, 1") 3 = Ok indices /\
    StronglySorted Z.lt indices /\
    Forall2 (fun i page =>
               pageAt [mkPdfPage 7 0; mkPdfPage 8 90; mkPdfPage 9 0] i
               = Some page)
            indices [mkPdfPage 7 0; mkPdfPage 8 90; mkPdfPage 9 0] /\
    [mkPdfPage 7 0; mkPdfPage 8 90; mkPdfPage 9 0] <> [] /\
    (3 <= 3)%nat.
Proof.
  apply (extract_in_document_order
           [mkPdfPage 7 0; mkPdfPage 8 90; mkPdfPage 9 0] (str "3, 1-2, 1")).
  reflexivity.
Defined.

(** *** Splitting *)

Lemma splitAllFrom_suffix (base : jsstring) (rest : PdfDocument) :
  forall pre results,
    splitAllFrom (pre ++ rest) base (Z.of_nat (List.length pre))
      (List.length rest) results
    = Done (results ++ onePerPage base (Z.of_nat (List.length pre)) rest).
Proof.
  induction rest as [| page rest IH]; intros pre results;
    cbn [List.length splitAllFrom onePerPage].
  - rewrite app_nil_r. reflexivity.
  - cbn [copyPages]. rewrite nth_error_middle.
    replace (pre ++ page :: rest) with ((pre ++ [page]) ++ rest)
      by (rewrite <- app_assoc; reflexivity).
    specialize (IH (pre ++ [page])).
    rewrite length_app in IH. cbn [List.length] in IH.
    rewrite Nat.add_1_r, Nat2Z.inj_succ in IH. unfold Z.succ in IH.
    rewrite IH, <- app_assoc. reflexivity.
Qed.

(** X11. Splitting all pages gives one file per page, in the order of the
    document, the k-th holding the k-th page alone and named
    base_page_k.pdf; a document without pages gives the error "No PDFs
    were generated". *)
Theorem split_all_one_file_per_page
    (pdfFile : PdfFile) (rangesStr0 : option jsstring) :
  splitPdf pdfFile (mkSplitOptions all rangesStr0)
  = match filePages pdfFile with
    | [] => Failed NoPdfsGenerated
    | pages => Done (onePerPage (fileNameBase (fileName pdfFile)) 0 pages)
    end.
Proof.
  pose proof (splitAllFrom_suffix (fileNameBase (fileName pdfFile))
                (filePages pdfFile) [] []) as S.
  cbn [List.length app Z.of_nat] in S.
  unfold splitPdf. cbn [mode rangesStr]. unfold getPageCount.
  rewrite Nat2Z.id, S.
  destruct (filePages pdfFile); reflexivity.
Qed.

Lemma rangeSegments_not_blank (rangesStr0 : jsstring) (segment : jsstring) :
  In segment (rangeSegmentsOf rangesStr0) -> trim segment <> [].
Proof.
  unfold rangeSegmentsOf. intros I.
  apply filter_In in I as [I N].
  apply in_map_iff in I as (part & <- & _).
  rewrite trim_idempotent.
  destruct (trim part); [discriminate | discriminate].
Qed.

Lemma splitSegments_files (pdfDoc : PdfDocument) (base : jsstring)
    (segments : list jsstring) :
  (forall segment, In segment segments -> trim segment <> []) ->
  forall results out,
    splitSegments pdfDoc base segments results = Done out ->
    exists files,
      out = results ++ files /\
      Forall2 (segmentFile pdfDoc base) segments files.
Proof.
  induction segments as [| segment rest IH]; intros B results out;
    cbn [splitSegments].
  - intros [= <-]. exists []. split; [symmetry; apply app_nil_r | constructor].
  - destruct (parsePageRanges segment (getPageCount pdfDoc))
      as [indices | e] eqn:P; [| discriminate].
    destruct indices as [| i more].
    + exfalso. apply (B segment (or_introl eq_refl)).
      exact (parse_ok_nil_blank _ _ P).
    + destruct (copyPages pdfDoc (i :: more)) as [copied |] eqn:C;
        [| discriminate].
      intros H.
      destruct (IH (fun s I => B s (or_intror I)) _ _ H) as (files & -> & F).
      eexists. split; [rewrite <- app_assoc; reflexivity |].
      constructor; [| exact F].
      split; [| reflexivity].
      unfold extractPagesFromPdf. rewrite P, C. reflexivity.
Qed.

Lemma splitSegments_aborts (pdfDoc : PdfDocument) (base : jsstring)
    (segments : list jsstring) :
  (exists segment e,
      In segment segments /\
      parsePageRanges segment (getPageCount pdfDoc) = Err e) ->
  (forall segment indices,
      In segment segments ->
      parsePageRanges segment (getPageCount pdfDoc) = Ok indices ->
      exists pages, copyPages pdfDoc indices = Some pages) ->
  forall results,
    exists e, splitSegments pdfDoc base segments results
              = Failed (ParseFailure e).
Proof.
  induction segments as [| segment rest IH];
    intros (bad & e & I & P) Hc results.
  - destruct I.
  - cbn [splitSegments].
    destruct (parsePageRanges segment (getPageCount pdfDoc))
      as [indices | e'] eqn:P'; [| exists e'; reflexivity].
    assert (I' : In bad rest).
    { destruct I as [-> | I]; [congruence | exact I]. }
    assert (R : forall results0,
               exists e0, splitSegments pdfDoc base rest results0
                          = Failed (ParseFailure e0)).
    { apply IH.
      - exists bad, e. split; assumption.
      - intros s idx Is. apply Hc. right. exact Is. }
    destruct indices as [| i more]; [apply R |].
    destruct (Hc segment (i :: more) (or_introl eq_refl) P') as [pages C].
    rewrite C. apply R.
Qed.

(** X12. Splitting by ranges: a segment the parser rejects makes the whole
    call fail with that kind of error (no segment is skipped); and when
    the call succeeds there is one file per segment that is not blank, in
    their order, each holding what the extraction of its segment gives and
    named base_split_segment.pdf with the segment sanitized. *)
Theorem split_ranges_per_segment
    (pdfFile : PdfFile) (rangesStr0 : jsstring) :
  ((exists segment e,
       In segment (rangeSegmentsOf rangesStr0) /\
       parsePageRanges segment (getPageCount (filePages pdfFile)) = Err e) ->
   exists e, splitPdf pdfFile (mkSplitOptions ranges (Some rangesStr0))
             = Failed (ParseFailure e)) /\
  (forall files,
      splitPdf pdfFile (mkSplitOptions ranges (Some rangesStr0)) = Done files ->
      Forall2 (segmentFile (filePages pdfFile)
                 (fileNameBase (fileName pdfFile)))
              (rangeSegmentsOf rangesStr0) files).
Proof.
  unfold splitPdf. cbn [mode rangesStr].
  destruct rangesStr0 as [| c r].
  - split; [intros (s & e & I & _); vm_compute in I; destruct I |].
    intros files; discriminate.
  - destruct (rangeSegmentsOf (c :: r)) as [| s0 segs] eqn:R.
    + split; [intros (s & e & [] & _) | intros files; discriminate].
    + rewrite <- R. split.
      * intros Bad.
        assert (Hc : forall segment indices,
                   In segment (rangeSegmentsOf (c :: r)) ->
                   parsePageRanges segment (getPageCount (filePages pdfFile))
                   = Ok indices ->
                   exists pages, copyPages (filePages pdfFile) indices
                                 = Some pages).
        { intros s idx _ P.
          destruct (parse_ok_indices _ _ _ P) as (_ & _ & B).
          destruct (copyPages_in_range _ _ B) as (pages & C & _).
          exists pages. exact C. }
        destruct (splitSegments_aborts (filePages pdfFile)
                    (fileNameBase (fileName pdfFile))
                    (rangeSegmentsOf (c :: r)) Bad Hc []) as [e E].
        rewrite E. exists e. reflexivity.
      * intros files H.
        destruct (splitSegments (filePages pdfFile)
                    (fileNameBase (fileName pdfFile))
                    (rangeSegmentsOf (c :: r)) []) as [out | e] eqn:E.
        -- destruct (splitSegments_files _ _ _
                       (rangeSegments_not_blank (c :: r)) _ _ E)
             as (fs & -> & F).
           cbn [app] in H. destruct fs as [| f fs']; [discriminate |].
           injection H as <-. exact F.
        -- discriminate.
Qed.

Lemma split_ranges_per_segment_witness :
  exists e,
    splitPdf (mkPdfFile (str "a.pdf") [mkPdfPage 1 0; mkPdfPage 2 0])
             (mkSplitOptions ranges (Some (str "1, 5, 2")))
    = Failed (ParseFailure e).
Proof.
  apply (proj1 (split_ranges_per_segment
                  (mkPdfFile (str "a.pdf") [mkPdfPage 1 0; mkPdfPage 2 0])
                  (str "1, 5, 2"))).
  exists (str "5"), InvalidPageNumber.
  split; [right; left; reflexivity | reflexivity].
Defined.

(** *** File names *)

Lemma sanitize_char_allowed (c : ascii) :
  allowedInName (if isAlnum c || Ascii.eqb c "-" then c else "_") = true.
Proof.
  unfold allowedInName.
  destruct (isAlnum c) eqn:A; cbn [orb]; [rewrite A; reflexivity |].
  destruct (Ascii.eqb c "-") eqn:D.
  - rewrite A, D. reflexivity.
  - reflexivity.
Qed.

(** X13. A sanitized segment has the length of the segment, is made of
    letters, digits, dashes and underscores only, and keeps every letter,
    digit and dash of the segment where it is; a segment made of those
    only is unchanged. *)
Theorem sanitized_segment (segment : jsstring) :
  List.length (sanitizeSegment segment) = List.length segment /\
  forallb allowedInName (sanitizeSegment segment) = true /\
  (forall k c,
      nth_error segment k = Some c -> isAlnum c || Ascii.eqb c "-" = true ->
      nth_error (sanitizeSegment segment) k = Some c) /\
  (forallb (fun c => isAlnum c || Ascii.eqb c "-") segment = true ->
   sanitizeSegment segment = segment).
Proof.
  unfold sanitizeSegment. split; [apply length_map |]. split; [| split].
  - induction segment as [| c r IH]; [reflexivity |].
    cbn [map forallb]. rewrite sanitize_char_allowed, IH. reflexivity.
  - intros k c N A.
    rewrite nth_error_map, N. cbn [option_map]. rewrite A. reflexivity.
  - induction segment as [| c r IH]; [reflexivity |].
    cbn [map forallb]. intros H. apply andb_true_iff in H as [H1 H2].
    rewrite H1, (IH H2). reflexivity.
Qed.

Lemma sanitized_segment_witness :
  sanitizeSegment (str "12-15") = str "12-15".
Proof.
  apply (proj2 (proj2 (proj2 (sanitized_segment (str "12-15"))))).
  reflexivity.
Defined.

Lemma lastIndexOfFrom_absent (c : ascii) (s : jsstring) :
  includes c s = false ->
  forall i found, lastIndexOfFrom c s i found = found.
Proof.
  unfold includes. induction s as [| d r IH]; intros H i found;
    [reflexivity |].
  cbn [existsb] in H. apply orb_false_iff in H as [H1 H2].
  cbn [lastIndexOfFrom]. rewrite Ascii.eqb_sym, H1. apply IH. exact H2.
Qed.

Lemma lastIndexOfFrom_last (c : ascii) (b ext : jsstring) :
  includes c ext = false ->
  forall i found,
    lastIndexOfFrom c (b ++ c :: ext) i found = i + Z.of_nat (List.length b).
Proof.
  intros H. induction b as [| d b IH]; intros i found.
  - cbn [app lastIndexOfFrom List.length]. rewrite Ascii.eqb_refl.
    rewrite (lastIndexOfFrom_absent _ _ H). cbn. lia.
  - cbn [app lastIndexOfFrom List.length]. rewrite IH. lia.
Qed.

(** X14. The base of a file name is the name up to its last dot; a name
    without a dot, or whose only dot is its first character, is its own
    base. *)
Theorem file_name_base (b ext : jsstring) :
  includes "." ext = false ->
  (b <> [] -> fileNameBase (b ++ "." :: ext) = b) /\
  fileNameBase ext = ext /\
  fileNameBase ("." :: ext) = "." :: ext.
Proof.
  intros H. unfold fileNameBase, lastIndexOf, substring0. split; [| split].
  - intros Hb. rewrite (lastIndexOfFrom_last _ b _ H).
    cbn [Z.add]. rewrite Nat2Z.id, firstn_app, Nat.sub_diag, firstn_all.
    cbn [firstn]. rewrite app_nil_r.
    destruct b; [congruence | reflexivity].
  - rewrite (lastIndexOfFrom_absent _ _ H). reflexivity.
  - rewrite (lastIndexOfFrom_last _ [] _ H). reflexivity.
Qed.

Lemma file_name_base_witness :
  fileNameBase (str "report.final" ++ "." :: str "pdf") = str "report.final".
Proof.
  apply (proj1 (file_name_base (str "report.final") (str "pdf") eq_refl)).
  discriminate.
Defined.

(** *** Rotation *)

Lemma length_replaceAt (doc : PdfDocument) :
  forall i page, List.length (replaceAt doc i page) = List.length doc.
Proof.
  induction doc as [| p doc IH]; intros [| i] page; cbn [replaceAt List.length];
    try reflexivity.
  rewrite IH. reflexivity.
Qed.

Lemma nth_error_replaceAt (doc : PdfDocument) :
  forall i page k old,
    nth_error doc k = Some old ->
    nth_error (replaceAt doc i page) k
    = Some (if (k =? i)%nat then page else old).
Proof.
  induction doc as [| p doc IH]; intros i page k old H.
  - destruct k; discriminate.
  - destruct i as [| i], k as [| k]; cbn [replaceAt nth_error] in *;
      try exact H; try reflexivity.
    rewrite (IH i page k old H). reflexivity.
Qed.

(** Turning the pages at distinct indices of the document. *)
Lemma rotateEach_pages (angle : Z) (indices : list Z) :
  forall doc,
    NoDup indices ->
    (forall i, In i indices -> 0 <= i < getPageCount doc) ->
    exists doc',
      rotateEach angle doc indices = Some doc' /\
      List.length doc' = List.length doc /\
      forall k page,
        nth_error doc k = Some page ->
        nth_error doc' k
        = Some (if isSelected indices k then rotatedBy angle page else page).
Proof.
  induction indices as [| i rest IH]; intros doc N B.
  - exists doc. repeat split. intros k page H. exact H.
  - inversion N as [| ? ? Hi N']; subst.
    pose proof (B i (or_introl eq_refl)) as Bi.
    destruct (pageAt_in_range doc i Bi) as [page0 P].
    cbn [rotateEach]. unfold rotatePage. rewrite P.
    fold (rotatedBy angle page0).
    set (doc1 := replaceAt doc (Z.to_nat i) (rotatedBy angle page0)).
    assert (L1 : List.length doc1 = List.length doc)
      by apply length_replaceAt.
    destruct (IH doc1 N') as (doc' & R & L & H).
    { intros j Ij. unfold getPageCount. rewrite L1. apply B. right. exact Ij. }
    exists doc'. split; [exact R |]. split; [congruence |].
    intros k page Hk.
    pose proof (nth_error_replaceAt doc (Z.to_nat i) (rotatedBy angle page0)
                  k page Hk) as H1.
    fold doc1 in H1. rewrite (H k _ H1).
    unfold isSelected. cbn [existsb].
    destruct (Nat.eqb_spec k (Z.to_nat i)) as [-> | Ne].
    + rewrite Z2Nat.id by lia. rewrite Z.eqb_refl. cbn [orb].
      assert (page = page0).
      { unfold pageAt in P. destruct (i <? 0); [discriminate | congruence]. }
      subst page0.
      replace (existsb (Z.eqb i) rest) with false; [reflexivity |].
      symmetry. apply not_true_is_false. intros E.
      apply existsb_exists in E as (j & Ij & Ej).
      apply Z.eqb_eq in Ej. subst j. exact (Hi Ij).
    + replace (Z.of_nat k =? i) with false; [reflexivity |].
      symmetry. apply Z.eqb_neq. lia.
Qed.

(** X15. Rotation turns exactly the pages the expression selects, each
    once (also when the expression names it several times), by setting the
    remainder of rotation + angle by 360; the other pages, the order and
    the number of pages are kept.  It fails only as the parser does, or
    with "No valid pages selected" on a blank expression. *)
Theorem rotate_selected_pages_once
    (pdfDoc : PdfDocument) (pageRangesStr : jsstring) (angle : Angle) :
  match parsePageRanges pageRangesStr (getPageCount pdfDoc) with
  | Err e =>
      rotatePdfPages pdfDoc pageRangesStr angle = Failed (ParseFailure e)
  | Ok [] =>
      rotatePdfPages pdfDoc pageRangesStr angle = Failed NoPagesForRotation
  | Ok indices =>
      exists rotated,
        rotatePdfPages pdfDoc pageRangesStr angle = Done rotated /\
        List.length rotated = List.length pdfDoc /\
        forall k page,
          nth_error pdfDoc k = Some page ->
          nth_error rotated k
          = Some (if isSelected indices k
                  then rotatedBy (angleValue angle) page else page)
  end.
Proof.
  unfold rotatePdfPages.
  destruct (parsePageRanges pageRangesStr (getPageCount pdfDoc))
    as [indices | e] eqn:P; [| reflexivity].
  destruct indices as [| i rest]; [reflexivity |].
  destruct (parse_ok_indices _ _ _ P) as (_ & N & B).
  destruct (rotateEach_pages (angleValue angle) (i :: rest) pdfDoc N B)
    as (doc' & R & L & H).
  rewrite R. exists doc'. repeat split; assumption.
Qed.

Lemma rotate_selected_pages_once_witness :
  exists rotated,
    rotatePdfPages [mkPdfPage 1 0; mkPdfPage 2 270] (str "2, 2") deg180
    = Done rotated /\
    List.length rotated = 2%nat /\
    forall k page,
      nth_error [mkPdfPage 1 0; mkPdfPage 2 270] k = Some page ->
      nth_error rotated k
      = Some (if isSelected [1] k then rotatedBy 180 page else page).
Proof.
  exact (rotate_selected_pages_once
           [mkPdfPage 1 0; mkPdfPage 2 270] (str "2, 2") deg180).
Defined.

Lemma rotation_back (r a b : Z) :
  0 <= r < 360 -> 0 <= a -> 0 <= b -> a + b = 360 ->
  Z.rem (Z.rem (r + a) 360 + b) 360 = r.
Proof.
  intros Hr Ha Hb Hab.
  rewrite (Z.rem_mod_nonneg (r + a) 360) by lia.
  pose proof (Z.mod_pos_bound (r + a) 360 ltac:(lia)).
  rewrite Z.rem_mod_nonneg by lia.
  rewrite Zplus_mod_idemp_l.
  replace (r + a + b) with (r + 1 * 360) by lia.
  rewrite Z.mod_add by lia. apply Z.mod_small. exact Hr.
Qed.

(** X16. Rotation can be undone: on a document whose rotations lie in
    0..359, rotating the pages of an expression by an angle and then by the
    angle that completes it to 360 gives the document back. *)
Theorem rotate_then_complement_restores
    (pdfDoc rotated : PdfDocument) (pageRangesStr : jsstring)
    (angle back : Angle) :
  (forall page, In page pdfDoc -> 0 <= rotation page < 360) ->
  angleValue angle + angleValue back = 360 ->
  rotatePdfPages pdfDoc pageRangesStr angle = Done rotated ->
  rotatePdfPages rotated pageRangesStr back = Done pdfDoc.
Proof.
  intros Hr Hab H1.
  unfold rotatePdfPages in H1 |- *.
  destruct (parsePageRanges pageRangesStr (getPageCount pdfDoc))
    as [indices | e] eqn:P; [| discriminate].
  destruct indices as [| i rest]; [discriminate |].
  destruct (parse_ok_indices _ _ _ P) as (_ & N & B).
  destruct (rotateEach_pages (angleValue angle) (i :: rest) pdfDoc N B)
    as (doc1 & R1 & L1 & K1).
  rewrite R1 in H1. injection H1 as <-.
  assert (C : getPageCount doc1 = getPageCount pdfDoc)
    by (unfold getPageCount; rewrite L1; reflexivity).
  rewrite C, P.
  assert (B1 : forall j, In j (i :: rest) -> 0 <= j < getPageCount doc1)
    by (rewrite C; exact B).
  destruct (rotateEach_pages (angleValue back) (i :: rest) doc1 N B1)
    as (doc2 & R2 & L2 & K2).
  rewrite R2. f_equal. apply nth_error_ext. intros k.
  destruct (nth_error pdfDoc k) as [page |] eqn:E.
  - rewrite (K2 k _ (K1 k page E)).
    destruct (isSelected (i :: rest) k); [| reflexivity].
    f_equal. destruct page as [id r]. unfold rotatedBy. cbn [pageId rotation].
    f_equal. apply rotation_back; try assumption.
    + apply (Hr (mkPdfPage id r)). exact (nth_error_In _ _ E).
    + destruct angle; cbn; lia.
    + destruct back; cbn; lia.
  - apply nth_error_None. apply nth_error_None in E. lia.
Qed.

Lemma rotate_then_complement_restores_witness :
  rotatePdfPages [mkPdfPage 1 270; mkPdfPage 2 0] (str "1,1") deg90
  = Done [mkPdfPage 1 0; mkPdfPage 2 0].
Proof.
  apply (rotate_then_complement_restores
           [mkPdfPage 1 0; mkPdfPage 2 0] [mkPdfPage 1 270; mkPdfPage 2 0]
           (str "1,1") deg270 deg90).
  - intros page [<- | [<- | []]]; cbn; lia.
  - reflexivity.
  - reflexivity.
Defined.

End PdfServiceTheorems.

(* ================================================================== *)
(** ** The colour, the position and the text of the page numbers *)

Module PageNumberStyleTheorems.
Import Js Reference JsFacts ServiceReference PageNumbers PageNumberStyle.
Import PageNumbersTheorems.

Local Open Scope char_scope.

#[local] Arguments isHexDigit : simpl never.
#[local] Arguments hexDigitValue : simpl never.
#[local] Arguments toString : simpl never.

Lemma hexDigit_bound (c : ascii) :
  isHexDigit c = true -> (0 <= hexDigitValue c <= 15)%Z.
Proof.
  destruct c as [[] [] [] [] [] [] [] []]; vm_compute;
    intros H; try discriminate H; split; discriminate.
Qed.

Lemma dropHash_hexDigit (c : ascii) (s : jsstring) :
  isHexDigit c = true -> dropHash (c :: s) = c :: s.
Proof.
  intros H.
  destruct c as [[] [] [] [] [] [] [] []]; try reflexivity;
    vm_compute in H; discriminate.
Qed.

Lemma parseHexPair_bound (h l : ascii) :
  isHexDigit h = true -> isHexDigit l = true ->
  (0 <= parseHexPair h l <= 255)%Z.
Proof.
  intros Hh Hl. unfold parseHexPair.
  pose proof (hexDigit_bound h Hh). pose proof (hexDigit_bound l Hl). lia.
Qed.

Lemma byte_fraction_in_unit (z : Z) :
  (0 <= z <= 255)%Z -> (0 <= z # 255 /\ z # 255 <= 1)%Q.
Proof.
  intros H. unfold Qle. cbn [Qnum Qden]. lia.
Qed.

(** X17. Whatever the text, every component of the colour [hexToRgb]
    returns lies between 0 and 1. *)
Theorem hexToRgb_components_in_unit_range (hex : jsstring) :
  (0 <= red (hexToRgb hex) /\ red (hexToRgb hex) <= 1)%Q /\
  (0 <= green (hexToRgb hex) /\ green (hexToRgb hex) <= 1)%Q /\
  (0 <= blue (hexToRgb hex) /\ blue (hexToRgb hex) <= 1)%Q.
Proof.
  assert (Bk : (0 <= 0 /\ 0 <= 1)%Q) by (split; discriminate).
  unfold hexToRgb.
  destruct (dropHash (expandShorthand hex))
    as [| r1 [| r2 [| g1 [| g2 [| b1 [| b2 [| x t]]]]]]];
    cbn [red green blue]; auto.
  destruct (forallb isHexDigit [r1; r2; g1; g2; b1; b2]) eqn:F;
    cbn [red green blue]; auto.
  cbn [forallb] in F.
  repeat (apply andb_true_iff in F; destruct F as [? F]).
  repeat split; apply byte_fraction_in_unit, parseHexPair_bound; assumption.
Qed.

(** X18. The short form of a colour, three hexadecimal digits with or
    without #, is the colour whose six digits double each of them. *)
Theorem hexToRgb_shorthand (r g b : ascii) :
  isHexDigit r = true -> isHexDigit g = true -> isHexDigit b = true ->
  hexToRgb [r; g; b] = hexToRgb [r; r; g; g; b; b] /\
  hexToRgb ("#" :: [r; g; b]) = hexToRgb ("#" :: [r; r; g; g; b; b]) /\
  hexToRgb ("#" :: [r; g; b]) = hexToRgb [r; g; b] /\
  hexToRgb [r; g; b]
  = {| red := parseHexPair r r # 255;
       green := parseHexPair g g # 255;
       blue := parseHexPair b b # 255 |}.
Proof.
  intros Hr Hg Hb.
  assert (S3 : hexToRgb [r; g; b]
               = {| red := parseHexPair r r # 255;
                    green := parseHexPair g g # 255;
                    blue := parseHexPair b b # 255 |}).
  { unfold hexToRgb, expandShorthand.
    rewrite (dropHash_hexDigit r [g; b] Hr), Hr, Hg, Hb. cbn [andb].
    rewrite (dropHash_hexDigit r _ Hr). cbn [forallb].
    rewrite Hr, Hg, Hb. reflexivity. }
  assert (S6 : hexToRgb [r; r; g; g; b; b]
               = {| red := parseHexPair r r # 255;
                    green := parseHexPair g g # 255;
                    blue := parseHexPair b b # 255 |}).
  { unfold hexToRgb, expandShorthand.
    rewrite (dropHash_hexDigit r _ Hr).
    rewrite (dropHash_hexDigit r _ Hr). cbn [forallb].
    rewrite Hr, Hg, Hb. reflexivity. }
  assert (H3 : hexToRgb ("#" :: [r; g; b]) = hexToRgb [r; g; b]).
  { rewrite S3. unfold hexToRgb, expandShorthand.
    cbn [dropHash]. rewrite Hr, Hg, Hb. cbn [andb].
    rewrite (dropHash_hexDigit r _ Hr). cbn [forallb].
    rewrite Hr, Hg, Hb. reflexivity. }
  assert (H6 : hexToRgb ("#" :: [r; r; g; g; b; b])
               = hexToRgb [r; r; g; g; b; b]).
  { rewrite S6. unfold hexToRgb, expandShorthand.
    cbn [dropHash forallb]. rewrite Hr, Hg, Hb. reflexivity. }
  repeat split; congruence.
Qed.

Lemma hexToRgb_shorthand_witness :
  hexToRgb (str "f80") = hexToRgb (str "ff8800").
Proof.
  apply (proj1 (hexToRgb_shorthand "f" "8" "0" eq_refl eq_refl eq_refl)).
Defined.

(** X19. A text that is not three or six hexadecimal digits, after an
    optional #, gives black. *)
Theorem hexToRgb_defaults_to_black (hex : jsstring) :
  (List.length (dropHash hex) <> 3%nat /\ List.length (dropHash hex) <> 6%nat)
  \/ forallb isHexDigit (dropHash hex) = false ->
  hexToRgb hex = black.
Proof.
  intros H. unfold hexToRgb, expandShorthand.
  destruct (dropHash hex)
    as [| r1 [| r2 [| g1 [| g2 [| b1 [| b2 [| x t]]]]]]] eqn:D;
    try (rewrite D; reflexivity).
  - (* three characters *)
    destruct H as [[H _] | H]; [exfalso; apply H; reflexivity |].
    cbn [forallb] in H. rewrite andb_true_r in H.
    rewrite andb_assoc in H. rewrite H, D. reflexivity.
  - (* six characters *)
    rewrite D.
    destruct H as [[_ H] | H]; [exfalso; apply H; reflexivity |].
    rewrite H. reflexivity.
Qed.

Lemma hexToRgb_defaults_to_black_witness :
  hexToRgb (str "#12345g") = black.
Proof.
  apply (hexToRgb_defaults_to_black (str "#12345g")).
  right. reflexivity.
Defined.

Local Open Scope Q_scope.

(** X20. Over exact arithmetic, a text that fits between the margins
    (textWidth <= width - 40, textHeight <= height - 40) is placed inside
    the page, 20 points or more from every edge, at each of the six
    positions; along the axis it is named after, it touches the margin for
    left, right, top and bottom and has equal gaps for centre. *)
Theorem page_number_inside_margins
    (position : PageNumberPosition) (width height textWidth textHeight : Q) :
  textWidth <= width - 2 * textMargin ->
  textHeight <= height - 2 * textMargin ->
  let '(x, y) := textOrigin position width height textWidth textHeight in
  (textMargin <= x /\ x + textWidth <= width - textMargin) /\
  (textMargin <= y /\ y + textHeight <= height - textMargin) /\
  match position with
  | TopLeft | BottomLeft => x == textMargin
  | TopRight | BottomRight => x + textWidth == width - textMargin
  | TopCenter | BottomCenter => x == width - (x + textWidth)
  end /\
  match position with
  | TopLeft | TopCenter | TopRight => y + textHeight == height - textMargin
  | BottomLeft | BottomCenter | BottomRight => y == textMargin
  end.
Proof.
  intros Hw Hh. unfold textMargin in *.
  destruct position; cbn [textOrigin];
    unfold textMargin, Qdiv; change (/ 2) with (1 # 2);
    repeat split; try lra; try (ring_simplify; lra).
Qed.

Lemma page_number_inside_margins_witness :
  let '(x, y) := textOrigin TopCenter 600 800 30 12 in
  (textMargin <= x /\ x + 30 <= 600 - textMargin) /\
  (textMargin <= y /\ y + 12 <= 800 - textMargin) /\
  x == 600 - (x + 30) /\
  y + 12 == 800 - textMargin.
Proof.
  apply (page_number_inside_margins TopCenter 600 800 30 12);
    vm_compute; congruence.
Defined.

Local Open Scope Z_scope.

Lemma toString_no_percent (n : Z) : includes "%" (toString n) = false.
Proof.
  unfold toString. destruct (n <? 0) eqn:E.
  - apply Z.ltb_lt in E.
    destruct (digitsOf_spec (S (Z.to_nat (- n))) (- n)) as (_ & D & _);
      [lia | lia |].
    unfold includes. cbn [existsb].
    change (existsb (Ascii.eqb "%") (digitsOf (S (Z.to_nat (- n))) (- n)))
      with (includes "%" (digitsOf (S (Z.to_nat (- n))) (- n))).
    rewrite (includes_digits "%" _ eq_refl D). reflexivity.
  - apply Z.ltb_ge in E.
    destruct (digitsOf_spec (S (Z.to_nat n)) n) as (_ & D & _); [lia | lia |].
    apply includes_digits; [reflexivity | exact D].
Qed.

Lemma replace_absent (b : ascii) (rep s : jsstring) :
  includes "%" s = false -> replace ["%"; b] rep s = s.
Proof.
  intros H. rewrite <- (app_nil_r s) at 1.
  rewrite (replace_after_P s H). cbn [replace startsWith].
  apply app_nil_r.
Qed.

(** X21. A format without a percent sign is drawn as it is on every page,
    and the format "%p / %t" is drawn as the page number, " / " and the
    page count. *)
Theorem page_text_plain_and_default (format : jsstring) (i totalPages : Z) :
  (includes "%" format = false -> pageNumStr format i totalPages = format) /\
  pageNumStr (str "%p / %t") i totalPages
  = toString (i + 1) ++ str " / " ++ toString totalPages.
Proof.
  unfold pageNumStr. change (str "%p") with ["%"; "p"].
  change (str "%t") with ["%"; "t"]. split.
  - intros H. rewrite !(replace_absent _ _ _ H). reflexivity.
  - change (str "%p / %t") with ("%" :: "p" :: str " / %t").
    rewrite replace_pair_hit.
    rewrite (replace_after_P _ (toString_no_percent (i + 1))).
    change (str " / %t") with [" "; "/"; " "; "%"; "t"].
    rewrite !replace_pair_miss by reflexivity.
    rewrite replace_pair_hit, app_nil_r. reflexivity.
Qed.

Lemma page_text_plain_and_default_witness :
  pageNumStr (str "Draft") 4 9 = str "Draft".
Proof.
  apply (proj1 (page_text_plain_and_default (str "Draft") 4 9)).
  reflexivity.
Defined.

End PageNumberStyleTheorems.

(* ================================================================== *)
(** ** Images to PDF: pages, orientation, placement *)

Module ImagePagesTheorems.
Import Reference ServiceReference PageFit PageFitTheorems.

Local Open Scope Q_scope.

Lemma Qltb_true (a b : Q) : Qltb a b = true <-> a < b.
Proof.
  unfold Qltb. rewrite (Qlt_alt a b).
  destruct (a ?= b); split; congruence.
Qed.

Lemma Qltb_false (a b : Q) : Qltb a b = false <-> b <= a.
Proof.
  unfold Qltb. rewrite (Qle_alt b a), <- (Qcompare_antisym a b).
  destruct (a ?= b); cbn [CompOpp]; split; congruence.
Qed.

Lemma pages_of_files (imageFiles : list (option (Q * Q)))
    (options : option ImageToPdfOptions) :
  flat_map (fun f => match f with
                     | Some (w, h) => [addImagePage options w h]
                     | None => []
                     end) imageFiles
  = map (fun d => addImagePage options (fst d) (snd d)) (embeddable imageFiles).
Proof.
  unfold embeddable.
  induction imageFiles as [| [[w h] |] fs IH]; cbn [flat_map map app];
    [reflexivity | rewrite IH; reflexivity | exact IH].
Qed.

(** X22. How the conversion ends: "No image files provided" exactly for an
    empty upload, "No images could be converted" exactly when files were
    given and none embeds, and otherwise one page per embedded image, in
    the order of the files. *)
Theorem images_to_pages (imageFiles : list (option (Q * Q)))
    (options : option ImageToPdfOptions) :
  (convertImagesToPdf imageFiles options = Thrown NoImageFiles
   <-> imageFiles = []) /\
  (convertImagesToPdf imageFiles options = Thrown NoImagesConverted
   <-> imageFiles <> [] /\ embeddable imageFiles = []) /\
  (embeddable imageFiles <> [] ->
   convertImagesToPdf imageFiles options
   = Saved (map (fun d => addImagePage options (fst d) (snd d))
                (embeddable imageFiles))).
Proof.
  unfold convertImagesToPdf.
  destruct imageFiles as [| f fs].
  - split; [tauto |]. split; [| intros H; exfalso; apply H; reflexivity].
    split; [discriminate | intros [H _]; congruence].
  - rewrite pages_of_files.
    destruct (embeddable (f :: fs)) as [| d ds] eqn:E; cbn [map].
    + split; [split; discriminate |].
      split; [split; [intros _; split; [discriminate | reflexivity]
                     | reflexivity] |].
      intros H. congruence.
    + split; [split; discriminate |].
      split; [split; [discriminate | intros [_ H]; discriminate] |].
      reflexivity.
Qed.

Lemma images_to_pages_witness :
  convertImagesToPdf [None; Some (200, 100); None; Some (50, 70)] None
  = Saved (map (fun d => addImagePage None (fst d) (snd d))
               (embeddable [None; Some (200, 100); None; Some (50, 70)])).
Proof.
  apply (proj2 (proj2 (images_to_pages
                         [None; Some (200, 100); None; Some (50, 70)] None))).
  discriminate.
Defined.

(** X23. Every page has the orientation asked for: with 'landscape' it is
    at least as wide as high, with 'portrait' at least as high as wide,
    whatever the page size, a custom one included; and its two sides are
    those of the page size. *)
Theorem pages_have_requested_orientation
    (imageFiles : list (option (Q * Q))) (options : ImageToPdfOptions)
    (pages : list Page) (page : Page) :
  convertImagesToPdf imageFiles (Some options) = Saved pages ->
  In page pages ->
  match orientation options with
  | Some landscape => pageHeightOf page <= pageWidthOf page
  | Some portrait => pageWidthOf page <= pageHeightOf page
  | None => True
  end /\
  (let '(w, h) := pageDimensions (Some (mkOptions (pageSize options) None)) in
   (pageWidthOf page = w /\ pageHeightOf page = h) \/
   (pageWidthOf page = h /\ pageHeightOf page = w)).
Proof.
  intros H I.
  assert (P : exists w h, page = addImagePage (Some options) w h).
  { unfold convertImagesToPdf in H.
    destruct imageFiles as [| f fs]; [discriminate |].
    rewrite pages_of_files in H.
    destruct (map _ (embeddable (f :: fs))) as [| p ps] eqn:M;
      [discriminate |].
    injection H as <-. rewrite <- M in I.
    apply in_map_iff in I as ([w h] & <- & _). exists w, h. reflexivity. }
  destruct P as (w & h & ->). clear H I.
  unfold addImagePage, pageDimensions.
  destruct options as [ps o]. cbn [orientation pageSize].
  set (dims := match ps with
               | Some A4 => PageSizes_A4
               | Some Letter => PageSizes_Letter
               | Some (Custom w0 h0) => (w0, h0)
               | None => PageSizes_A4
               end).
  assert (D : (let '(pageWidth, pageHeight) :=
                 match Some {| pageSize := ps; orientation := None |} with
                 | Some {| pageSize := Some A4 |} => PageSizes_A4
                 | Some {| pageSize := Some Letter |} => PageSizes_Letter
                 | Some {| pageSize := Some (Custom w0 h0) |} => (w0, h0)
                 | _ => PageSizes_A4
                 end in (pageWidth, pageHeight)) = dims)
    by (subst dims; destruct ps as [[| | w0 h0] |]; reflexivity).
  replace (match Some {| pageSize := ps; orientation := o |} with
           | Some {| pageSize := Some A4 |} => PageSizes_A4
           | Some {| pageSize := Some Letter |} => PageSizes_Letter
           | Some {| pageSize := Some (Custom w0 h0) |} => (w0, h0)
           | _ => PageSizes_A4
           end) with dims
    by (subst dims; destruct ps as [[| | w0 h0] |]; reflexivity).
  replace (match Some {| pageSize := ps; orientation := None |} with
           | Some {| pageSize := Some A4 |} => PageSizes_A4
           | Some {| pageSize := Some Letter |} => PageSizes_Letter
           | Some {| pageSize := Some (Custom w0 h0) |} => (w0, h0)
           | _ => PageSizes_A4
           end) with dims
    by (subst dims; destruct ps as [[| | w0 h0] |]; reflexivity).
  clear D. destruct dims as [pw ph].
  destruct o as [[|] |]; cbn [pageWidthOf pageHeightOf].
  - destruct (Qgtb pw ph) eqn:E; cbn [pageWidthOf pageHeightOf].
    + apply Qgtb_true in E. split; [apply Qlt_le_weak, E | right; split; reflexivity].
    + apply Qgtb_false in E. split; [exact E | left; split; reflexivity].
  - destruct (Qltb pw ph) eqn:E; cbn [pageWidthOf pageHeightOf].
    + apply Qltb_true in E. split; [apply Qlt_le_weak, E | right; split; reflexivity].
    + apply Qltb_false in E. split; [exact E | left; split; reflexivity].
  - split; [exact I | left; split; reflexivity].
Qed.

Lemma pages_have_requested_orientation_witness :
  let page := addImagePage
                (Some (mkOptions (Some (Custom 300 500)) (Some landscape)))
                200 100 in
  pageHeightOf page <= pageWidthOf page /\
  (let '(w, h) :=
     pageDimensions (Some (mkOptions (Some (Custom 300 500)) None)) in
   (pageWidthOf page = w /\ pageHeightOf page = h) \/
   (pageWidthOf page = h /\ pageHeightOf page = w)).
Proof.
  apply (pages_have_requested_orientation
           [Some (200, 100)]
           (mkOptions (Some (Custom 300 500)) (Some landscape))
           [addImagePage
              (Some (mkOptions (Some (Custom 300 500)) (Some landscape)))
              200 100]).
  - reflexivity.
  - left. reflexivity.
Defined.

(** The rectangle of an image on a page with room between the margins. *)
Lemma fit_inside_margins (m iw ih pw ph : Q) :
  0 < iw -> 0 < ih -> 0 < pw - 2 * m -> 0 < ph - 2 * m ->
  let r := computeFit m iw ih pw ph in
  width r / height r == iw / ih /\
  (m <= x r /\ x r + width r <= pw - m) /\
  (m <= y r /\ y r + height r <= ph - m).
Proof.
  intros Hiw Hih Haw Hah r. subst r.
  assert (Ha : 0 < iw / ih) by (apply Qlt_shift_div_l; lra).
  destruct (Qlt_le_dec ((pw - 2 * m) / (ph - 2 * m)) (iw / ih)) as [H | H].
  - rewrite (computeFit_wider _ _ _ _ _ H). cbn [x y width height].
    pose proof (derived_height_fits _ _ _ Hah Ha H) as F.
    assert (P : 0 < (pw - 2 * m) / (iw / ih))
      by (apply Qlt_shift_div_l; lra).
    split; [field; repeat split; lra |].
    generalize dependent ((pw - 2 * m) / (iw / ih)).
    intros h Fh Ph. clear H Ha.
    split; split; halves.
  - rewrite (computeFit_taller _ _ _ _ _ H). cbn [x y width height].
    pose proof (derived_width_fits _ _ _ Hah H) as F.
    assert (P : 0 < (ph - 2 * m) * (iw / ih)) by nra.
    split; [field; repeat split; lra |].
    generalize dependent ((ph - 2 * m) * (iw / ih)).
    intros w Fw Pw. clear H Ha.
    split; split; halves.
Qed.

(** X24. On the pages the application offers (A4 or Letter, in either
    orientation or none, and the default), every image of positive size is
    drawn with its own aspect ratio and inside the page, 20 points or more
    from each edge. *)
Theorem standard_pages_hold_the_image
    (options : option ImageToPdfOptions) (imageWidth imageHeight : Q) :
  0 < imageWidth -> 0 < imageHeight ->
  match options with
  | Some {| pageSize := Some (Custom _ _) |} => False
  | _ => True
  end ->
  let page := addImagePage options imageWidth imageHeight in
  let r := drawn page in
  width r / height r == imageWidth / imageHeight /\
  (20 <= x r /\ x r + width r <= pageWidthOf page - 20) /\
  (20 <= y r /\ y r + height r <= pageHeightOf page - 20).
Proof.
  intros Hw Hh Hs.
  destruct options as [[[[| | cw ch] |] [[|] |]] |]; try contradiction;
    cbv zeta; unfold addImagePage;
    match goal with
    | |- context [pageDimensions ?o] =>
        let d := eval vm_compute in (pageDimensions o) in
        change (pageDimensions o) with d
    end; cbn [drawn pageWidthOf pageHeightOf];
    apply (fit_inside_margins margin); try assumption;
    vm_compute; reflexivity.
Qed.

Lemma standard_pages_hold_the_image_witness :
  let page := addImagePage (Some (mkOptions (Some Letter) (Some landscape)))
                3000 2000 in
  let r := drawn page in
  width r / height r == 3000 / 2000 /\
  (20 <= x r /\ x r + width r <= pageWidthOf page - 20) /\
  (20 <= y r /\ y r + height r <= pageHeightOf page - 20).
Proof.
  apply (standard_pages_hold_the_image
           (Some (mkOptions (Some Letter) (Some landscape))) 3000 2000);
    [reflexivity | reflexivity | exact I].
Defined.

End ImagePagesTheorems.

(* ================================================================== *)
(** ** The selected files and the routes *)

Module UploadTheorems.
Import Js Upload.

Local Open Scope Z_scope.

Lemma eqString_refl (a : jsstring) : eqString a a = true.
Proof.
  unfold eqString. destruct (list_eq_dec Ascii.ascii_dec a a); congruence.
Qed.

Lemma sameFile_refl (f : UploadedFile) : sameFile f f = true.
Proof.
  unfold sameFile. rewrite eqString_refl, Z.eqb_refl. reflexivity.
Qed.

Lemma filter_none {A : Type} (p : A -> bool) (l : list A) :
  (forall a, In a l -> p a = false) -> filter p l = [].
Proof.
  induction l as [| a l IH]; intros H; [reflexivity |].
  cbn [filter]. rewrite (H a (or_introl eq_refl)).
  apply IH. intros b I. apply H. right. exact I.
Qed.

(** X25. Adding a batch of files keeps the files already selected, in
    front and in their order; adds only files of the batch that no selected
    file matches by name and size; leaves every file of the batch matched
    in the new list; and adding the same batch again changes nothing.  With
    nothing selected the whole batch is taken as it is. *)
Theorem processFiles_adds_once
    (selectedFiles batch : list UploadedFile) :
  let updated := processFiles selectedFiles (Some batch) in
  firstn (List.length selectedFiles) updated = selectedFiles /\
  (forall f, In f (skipn (List.length selectedFiles) updated) ->
             In f batch /\
             forall sf, In sf selectedFiles -> sameFile sf f = false) /\
  (forall f, In f batch -> exists g, In g updated /\ sameFile g f = true) /\
  processFiles updated (Some batch) = updated /\
  processFiles [] (Some batch) = batch.
Proof.
  cbv zeta.
  set (fresh := fun f : UploadedFile =>
                  negb (existsb (fun sf => sameFile sf f) selectedFiles)).
  assert (U : processFiles selectedFiles (Some batch)
              = selectedFiles ++ filter fresh batch).
  { destruct batch as [| f fs]; [cbn; rewrite app_nil_r |]; reflexivity. }
  rewrite U.
  assert (M : forall f, In f batch ->
                exists g, In g (selectedFiles ++ filter fresh batch)
                          /\ sameFile g f = true).
  { intros f I. destruct (fresh f) eqn:E.
    - exists f. split; [| apply sameFile_refl].
      apply in_or_app. right. apply filter_In. split; assumption.
    - unfold fresh in E. apply negb_false_iff in E.
      apply existsb_exists in E as (g & Ig & Eg).
      exists g. split; [apply in_or_app; left; exact Ig | exact Eg]. }
  split; [| split; [| split; [exact M | split]]].
  - rewrite firstn_app, Nat.sub_diag, firstn_all. cbn [firstn].
    apply app_nil_r.
  - rewrite skipn_app, Nat.sub_diag, skipn_all. cbn [skipn app].
    intros f I. apply filter_In in I as [I E]. split; [exact I |].
    intros sf Isf. unfold fresh in E. apply negb_true_iff in E.
    destruct (sameFile sf f) eqn:S; [| reflexivity].
    assert (X : existsb (fun sf0 => sameFile sf0 f) selectedFiles = true)
      by (apply existsb_exists; exists sf; split; assumption).
    congruence.
  - destruct batch as [| f fs]; [reflexivity |].
    set (updated := selectedFiles ++ filter fresh (f :: fs)) in *.
    cbn [processFiles].
    rewrite (filter_none
               (fun f0 => negb (existsb (fun sf => sameFile sf f0) updated))
               (f :: fs)); [apply app_nil_r |].
    intros a I. apply negb_false_iff. apply existsb_exists.
    exact (M a I).
  - destruct batch as [| f fs]; [reflexivity |].
    cbn [processFiles app]. generalize (f :: fs). intros l.
    induction l as [| a l IH]; [reflexivity |].
    cbn [filter existsb negb]. f_equal. exact IH.
Qed.

Lemma processFiles_adds_once_witness :
  exists g,
    In g (processFiles [mkUploaded (str "a.pdf") 10]
            (Some [mkUploaded (str "a.pdf") 10; mkUploaded (str "b.pdf") 7]))
    /\ sameFile g (mkUploaded (str "b.pdf") 7) = true.
Proof.
  apply (proj1 (proj2 (proj2 (processFiles_adds_once
                                [mkUploaded (str "a.pdf") 10]
                                [mkUploaded (str "a.pdf") 10;
                                 mkUploaded (str "b.pdf") 7])))).
  right. left. reflexivity.
Defined.

End UploadTheorems.

Module RoutesTheorems.
Import Js Upload Routes.

Local Open Scope char_scope.

Lemma eqMode_eq (a b : AppMode) : eqMode a b = true <-> a = b.
Proof. destruct a, b; split; intros H; try reflexivity; discriminate H. Qed.

Lemma route_targetHash (mode : AppMode) : route (targetHash mode) = Some mode.
Proof. destruct mode; reflexivity. Qed.

Lemma eqString_true (a b : jsstring) : eqString a b = true -> a = b.
Proof.
  unfold eqString. destruct (list_eq_dec Ascii.ascii_dec a b);
    [trivial | discriminate].
Qed.

Lemma eqString_same (a : jsstring) : eqString a a = true.
Proof.
  unfold eqString. destruct (list_eq_dec Ascii.ascii_dec a a); congruence.
Qed.

(** A run of the handler on a hash whose address is in the table. *)
Lemma determine_known (m current : AppMode) (hash : jsstring) :
  route hash = Some m ->
  determineModeFromHash (mkAppState current ("#" :: hash))
  = mkAppState (if eqMode SELECT m then current else m) ("#" :: hash).
Proof.
  intros R. unfold determineModeFromHash. cbn [locationHash appMode].
  rewrite R. unfold mountedAppMode.
  destruct (eqMode SELECT m); reflexivity.
Qed.

Lemma onHashChange_known (m current : AppMode) (hash : jsstring) :
  route hash = Some m ->
  onHashChange (mkAppState current ("#" :: hash))
  = mkAppState (if eqMode SELECT m then current else m) ("#" :: hash).
Proof.
  intros R. unfold onHashChange. rewrite (determine_known m current hash R).
  cbn [locationHash]. rewrite eqString_same. reflexivity.
Qed.

(** The mode after a hashchange event, for any text after the #. *)
Lemma onHashChange_mode (current : AppMode) (hash : jsstring) :
  appMode (onHashChange (mkAppState current ("#" :: hash)))
  = match route hash with
    | Some SELECT | None => current
    | Some tool => tool
    end.
Proof.
  destruct (route hash) as [m |] eqn:R.
  - rewrite (onHashChange_known m current hash R). cbn [appMode].
    destruct m; reflexivity.
  - assert (D : exists h',
               determineModeFromHash (mkAppState current ("#" :: hash))
               = mkAppState current h' /\
               (h' = "#" :: hash \/ h' = "#" :: str "/")).
    { unfold determineModeFromHash. cbn [locationHash appMode].
      rewrite R. unfold mountedAppMode. cbn [eqMode negb andb].
      destruct (negb (eqString hash [])
                && negb (eqString hash (str "/")));
        [destruct (negb (eqString ("#" :: hash) (str "#/"))) |];
        eexists; (split; [reflexivity |]);
        first [left; reflexivity | right; reflexivity]. }
    destruct D as (h' & D & [-> | ->]); unfold onHashChange;
      rewrite D; cbn [locationHash].
    + rewrite eqString_same. reflexivity.
    + destruct (eqString ("#" :: str "/") ("#" :: hash));
        [reflexivity |].
      rewrite (determine_known SELECT current (str "/") eq_refl).
      reflexivity.
Qed.

(** X26. Routing, with the mode the handler compares against being the one
    captured at mount (SELECT).  After navigateToMode(mode) and the hash
    change it fires, the application is in that mode at that mode's
    address, from any state.  A hash change to an address (a text that
    starts with a slash) opens the tool of that address from any state when
    it is the address of a tool; when it is an address of the selection
    screen, or is not in the table, the current mode stays as it is. *)
Theorem routing_by_hash (s : AppState) (mode : AppMode) (rest : jsstring) :
  (appMode (navigate mode s) = mode /\
   locationHash (navigate mode s) = "#" :: targetHash mode) /\
  appMode (onHashChange (mkAppState (appMode s) ("#" :: "/" :: rest)))
  = match route ("/" :: rest) with
    | Some SELECT | None => appMode s
    | Some tool => tool
    end.
Proof.
  split; [| apply onHashChange_mode].
  unfold navigate, navigateToMode.
  destruct (negb (eqString (locationHash s) ("#" :: targetHash mode)))
    eqn:D.
  - rewrite orb_true_r.
    rewrite (onHashChange_known mode mode (targetHash mode)
               (route_targetHash mode)).
    cbn [appMode locationHash].
    destruct (eqMode SELECT mode); split; reflexivity.
  - rewrite orb_false_r. apply negb_false_iff, eqString_true in D.
    cbn [appMode locationHash].
    destruct (eqMode (appMode s) mode) eqn:E; cbn [negb].
    + apply eqMode_eq in E. split; assumption.
    + split; [reflexivity | exact D].
Qed.

(** From the state at mount, the address /split-pdf opens the split tool. *)
Lemma routing_by_hash_witness :
  appMode (onHashChange (mkAppState SELECT ("#" :: str "/split-pdf")))
  = SPLIT_PDF.
Proof.
  exact (proj2 (routing_by_hash (mkAppState SELECT []) SELECT
                  (str "split-pdf"))).
Defined.

End RoutesTheorems.
